(** * prism overlay: denick cache, AntiSniper responses, rate limiter, settings

    A shallow embedding of [prism/overlay/antisniper_api.py] and
    [prism/overlay/settings.py], together with the collaborators they lean on
    (the TTL cache, the rate limiter, the controller's error mapping).

    Conventions:
    - Python values that come out of [response.json()] are [pyval]s; a JSON
      object is a [gmap string pyval].
    - Time is a monotonic clock counted in seconds, a [Z].
    - A Python call that may raise is a [res]: [Ret v] or [Raise e]. *)

From stdpp Require Import gmap strings list.
From Stdlib Require Import ZArith Lia.

Set Warnings "-register-all".
Local Open Scope string_scope.
Local Open Scope Z_scope.

(** ** Python values and exceptions *)

Module Py.

Inductive pyval : Type :=
  | PNone
  | PBool (b : bool)
  | PInt (z : Z)
  | PFloat (bits : Z)            (* IEEE-754 binary64, as its bit pattern *)
  | PStr (s : string)
  | PList (l : list pyval)
  | PDict (d : gmap string pyval).

Inductive exn : Type :=
  | AttributeError               (* [x.get] on something that has no [get] *)
  | KeyError                     (* [d[k]] on a missing key *)
  | AssertionError
  | HypixelAPIError
  | HypixelAPIKeyError
  | HypixelAPIThrottleError
  | HypixelPlayerNotFoundError.

Inductive res (A : Type) : Type :=
  | Ret (a : A)
  | Raise (e : exn).
Arguments Ret {A} a.
Arguments Raise {A} e.

Definition bind {A B} (m : res A) (k : A -> res B) : res B :=
  match m with
  | Ret a => k a
  | Raise e => Raise e
  end.

Notation "'let!' x ':=' m 'in' k" := (bind m (fun x => k))
  (at level 10, x name, m at level 100, k at level 200).

(** [bool(x)]: Python truthiness. *)
Definition truthy (x : pyval) : bool :=
  match x with
  | PNone => false
  | PBool b => b
  | PInt z => negb (z =? 0)
  | PFloat bits => negb (Z.land bits (2 ^ 63 - 1) =? 0)   (* +0.0 and -0.0 are falsy *)
  | PStr s => negb (String.eqb s "")
  | PList l => negb (Nat.eqb (length l) 0)
  | PDict d => negb (Nat.eqb (size d) 0)
  end.

(** [isinstance(x, int)]; [bool] is a subclass of [int]. *)
Definition is_int (x : pyval) : bool :=
  match x with PInt _ | PBool _ => true | _ => false end.

(** [x.get(key, default)]: defined on dicts only. *)
Definition get (x : pyval) (key : string) (dflt : pyval) : res pyval :=
  match x with
  | PDict d => Ret (default dflt (d !! key))
  | _ => Raise AttributeError
  end.

End Py.
Import Py.

(** ** The TTL cache *)

Module TTLCache.
Section Cache.
Context {V : Type}.
Variable maxsize : nat.
Variable ttl : Z.

(** One entry: the value and the instant it stops being served. *)
Record Link := { key : string; value : V; expires : Z }.

(** Entries in insertion order, oldest first. *)
Definition t := list Link.

Definition live (now : Z) (l : Link) : bool := now <? expires l.

Definition has_key (k : string) (l : Link) : bool := String.eqb (key l) k.

(** Drop what has expired. *)
Definition expire (now : Z) (c : t) : t := List.filter (live now) c.

(** Oldest-inserted eviction down to [maxsize] entries. *)
Definition evict (c : t) : t := skipn (length c - maxsize) c.

(** Modelled from the spec: the TTL cache of section 4.2 ([cachetools.TTLCache]
    is a third-party class, not under src/). [get] serves a key that is
    present and unexpired. *)
Definition get (c : t) (now : Z) (k : string) : option V :=
  match List.find (has_key k) c with
  | Some l => if live now l then Some (value l) else None
  | None => None
  end.

(** Modelled from the spec: [set] inserts or overwrites with a fresh expiry,
    then evicts the oldest-inserted entries beyond [maxsize]. *)
Definition set (c : t) (now : Z) (k : string) (v : V) : t :=
  let kept := List.filter (fun l => negb (has_key k l)) (expire now c) in
  evict (kept ++ [{| key := k; value := v; expires := now + ttl |}])%list.

End Cache.
Arguments Link : clear implicits.
Arguments t : clear implicits.
End TTLCache.

(** *** Facts about the cache *)

Section CacheFacts.
Context {V : Type}.
Variable maxsize : nat.
Variable ttl : Z.
Implicit Types (c : TTLCache.t V) (k : string) (v : V).

Lemma In_skipn {A} (n : nat) (l : list A) (x : A) :
  In x (skipn n l) -> In x l.
Proof.
  intros Hx. rewrite <- (firstn_skipn n l). apply in_or_app. now right.
Qed.

Lemma find_absent c k :
  (forall l, In l c -> TTLCache.has_key k l = false) ->
  List.find (TTLCache.has_key k) c = None.
Proof.
  induction c as [|l c IH]; intros Hall; simpl; [reflexivity|].
  rewrite (Hall l (or_introl eq_refl)). apply IH.
  intros l' Hl'. apply Hall. now right.
Qed.

Lemma find_app_absent c1 c2 k :
  (forall l, In l c1 -> TTLCache.has_key k l = false) ->
  List.find (TTLCache.has_key k) (c1 ++ c2) = List.find (TTLCache.has_key k) c2.
Proof.
  induction c1 as [|l c1 IH]; intros Hall; simpl; [reflexivity|].
  rewrite (Hall l (or_introl eq_refl)). apply IH.
  intros l' Hl'. apply Hall. now right.
Qed.

Lemma has_key_refl k v (e : Z) :
  TTLCache.has_key k {| TTLCache.key := k; TTLCache.value := v; TTLCache.expires := e |} = true.
Proof. unfold TTLCache.has_key; simpl. apply String.eqb_refl. Qed.

(** Where the links of [set c now k v] come from. *)
Lemma set_links c now k v l :
  In l (TTLCache.set maxsize ttl c now k v) ->
  l = {| TTLCache.key := k; TTLCache.value := v; TTLCache.expires := now + ttl |}
  \/ (In l c /\ TTLCache.has_key k l = false).
Proof.
  unfold TTLCache.set, TTLCache.evict, TTLCache.expire. intros Hin.
  apply In_skipn in Hin. apply in_app_or in Hin as [Hin|Hin].
  - right. apply filter_In in Hin as [Hin Hk]. apply filter_In in Hin as [Hin _].
    split; [exact Hin|]. now apply negb_true_iff in Hk.
  - left. destruct Hin as [<-|[]]. reflexivity.
Qed.

(** With room for at least one entry, the entry just written is the one
    found under its key. *)
Lemma find_set c now k v :
  (0 < maxsize)%nat ->
  List.find (TTLCache.has_key k) (TTLCache.set maxsize ttl c now k v)
  = Some {| TTLCache.key := k; TTLCache.value := v; TTLCache.expires := now + ttl |}.
Proof.
  intros Hmax. unfold TTLCache.set, TTLCache.evict.
  set (kept := List.filter _ (TTLCache.expire now c)).
  rewrite length_app, skipn_app. simpl length.
  replace (length kept + 1 - maxsize - length kept)%nat with 0%nat by lia.
  rewrite find_app_absent.
  - simpl. now rewrite has_key_refl.
  - intros l Hl. apply In_skipn in Hl. subst kept.
    apply filter_In in Hl as [_ Hk]. now apply negb_true_iff in Hk.
Qed.

Lemma get_set c now k v (at_ : Z) :
  (0 < maxsize)%nat ->
  TTLCache.get (TTLCache.set maxsize ttl c now k v) at_ k
  = if at_ <? now + ttl then Some v else None.
Proof.
  intros Hmax. unfold TTLCache.get. rewrite find_set by exact Hmax.
  reflexivity.
Qed.

(** Whatever [get] serves is stored under that key and has not expired. *)
Lemma get_Some c (at_ : Z) k v :
  TTLCache.get c at_ k = Some v ->
  exists l, In l c /\ TTLCache.key l = k /\ TTLCache.value l = v
            /\ at_ < TTLCache.expires l.
Proof.
  unfold TTLCache.get. destruct (List.find _ c) as [l|] eqn:Hf; [|discriminate].
  destruct (TTLCache.live at_ l) eqn:Hl; [|discriminate].
  intros [= <-]. apply find_some in Hf as [Hin Hk].
  exists l. repeat split; [exact Hin| |].
  - unfold TTLCache.has_key in Hk. now apply String.eqb_eq in Hk.
  - unfold TTLCache.live in Hl. lia.
Qed.

End CacheFacts.

(** ** The rate limiter *)

Module RateLimiter.

(** [RateLimiter(limit=limit, window=window)] *)
Record RateLimiter := { limit : nat; window : Z }.

Section Limiter.
Variable self : RateLimiter.

(** Modelled from the spec: the rate limiter of section 4.1
    ([prism.ratelimiting.RateLimiter] is not under src/). Its state is the
    RateWindow of section 3, the timestamps of the acquisitions within the
    trailing window, newest first, next to the clock of its last event. *)
Record t := { clock : Z; recent : list Z }.

Definition init (now : Z) : t := {| clock := now; recent := [] |}.

(** [stamp] lies in the trailing window [[at_ - window, at_]]. *)
Definition in_window (at_ stamp : Z) : bool :=
  (at_ - window self <=? stamp) && (stamp <=? at_).

Definition window_count (at_ : Z) (stamps : list Z) : nat :=
  length (List.filter (in_window at_) stamps).

(** One more acquisition at [at_] keeps the window within [limit]. *)
Definition slot_available (at_ : Z) (stamps : list Z) : bool :=
  (window_count at_ stamps <? limit self)%nat.

(** The first instant from [arrival] on at which a slot is available: when
    [limit] acquisitions are on record, the [limit]-th newest must have left
    the window. *)
Definition next_slot (arrival : Z) (stamps : list Z) : Z :=
  match nth_error stamps (limit self - 1) with
  | Some old => Z.max arrival (old + window self + 1)
  | None => arrival
  end.

(** Modelled from the spec: [acquire()] blocks until a slot is available,
    then records the acquisition. The caller arrives [delay] after the
    limiter's last event; the result is the instant the slot is granted. *)
Definition acquire (delay : nat) (s : t) : Z * t :=
  let arrival := clock s + Z.of_nat delay in
  let granted := next_slot arrival (recent s) in
  (granted,
   {| clock := granted;
      recent := List.filter (fun stamp => granted - window self <=? stamp)
                  (granted :: recent s) |}).

(** A sequence of acquisitions; the log collects every granted instant,
    newest first. *)
Fixpoint acquisitions (delays : list nat) (s : t) (log : list Z) : list Z * t :=
  match delays with
  | [] => (log, s)
  | delay :: delays =>
      acquisitions delays (snd (acquire delay s)) (fst (acquire delay s) :: log)
  end.

Fixpoint descending (l : list Z) : Prop :=
  match l with
  | [] => True
  | x :: l => (forall y, In y l -> y <= x) /\ descending l
  end.

(** What ties the limiter's state to the log of all its acquisitions. *)
Record consistent (s : t) (log : list Z) : Prop := {
  log_past : forall x, In x log -> x <= clock s;
  log_recent : recent s = List.filter (fun stamp => clock s - window self <=? stamp) log;
  log_descending : descending log;
  log_bounded : forall at_, (window_count at_ log <= limit self)%nat
}.

End Limiter.

Section LimiterFacts.
Variable self : RateLimiter.
Hypothesis limit_pos : (1 <= limit self)%nat.

Lemma filter_narrows {A} (p q : A -> bool) (l : list A) :
  (forall x, In x l -> p x = true -> q x = true) ->
  List.filter p (List.filter q l) = List.filter p l.
Proof.
  induction l as [|x l IH]; intros Himp; simpl; [reflexivity|].
  assert (List.filter p (List.filter q l) = List.filter p l) as IH'.
  { apply IH. intros y Hy. apply Himp. now right. }
  destruct (q x) eqn:Hq; simpl.
  - now rewrite IH'.
  - destruct (p x) eqn:Hp; [|exact IH'].
    rewrite (Himp x (or_introl eq_refl) Hp) in Hq. discriminate.
Qed.

Lemma filter_count_mono {A} (p q : A -> bool) (l : list A) :
  (forall x, In x l -> p x = true -> q x = true) ->
  (length (List.filter p l) <= length (List.filter q l))%nat.
Proof.
  intros Himp. rewrite <- (filter_narrows p q l Himp).
  apply filter_length_le.
Qed.

Lemma filter_nothing {A} (p : A -> bool) (l : list A) :
  (forall x, In x l -> p x = false) -> List.filter p l = [].
Proof.
  induction l as [|x l IH]; intros Hnone; simpl; [reflexivity|].
  rewrite (Hnone x (or_introl eq_refl)). apply IH.
  intros y Hy. apply Hnone. now right.
Qed.

Lemma descending_filter (p : Z -> bool) (l : list Z) :
  descending l -> descending (List.filter p l).
Proof.
  induction l as [|x l IH]; simpl; [trivial|]. intros [Hx Hl].
  destruct (p x); simpl; [|now apply IH].
  split; [|now apply IH].
  intros y Hy. apply filter_In in Hy as [Hy _]. now apply Hx.
Qed.

(** In a descending list nothing behind position [n] exceeds the entry there. *)
Lemma descending_behind (l : list Z) (n : nat) (old x : Z) :
  descending l -> nth_error l n = Some old -> In x (skipn n l) -> x <= old.
Proof.
  revert l. induction n as [|n IH]; intros [|y l] Hdesc Hnth Hin;
    simpl in *; try discriminate.
  - injection Hnth as ->. destruct Hdesc as [Hy _].
    destruct Hin as [->|Hin]; [lia|now apply Hy].
  - destruct Hdesc as [_ Hl]. now apply (IH l).
Qed.

(** At the instant [next_slot] picks, a slot is available. *)
Lemma next_slot_available (arrival : Z) (stamps : list Z) :
  descending stamps ->
  (window_count self (next_slot self arrival stamps) stamps < limit self)%nat.
Proof.
  intros Hdesc. unfold next_slot, window_count.
  destruct (nth_error stamps (limit self - 1)) as [old|] eqn:Hnth.
  - set (granted := Z.max arrival (old + window self + 1)).
    rewrite <- (firstn_skipn (limit self - 1) stamps) at 1.
    rewrite List.filter_app, length_app.
    rewrite (filter_nothing _ (skipn (limit self - 1) stamps)).
    + pose proof (filter_length_le (in_window self granted)
                    (firstn (limit self - 1) stamps)) as Hle.
      rewrite length_firstn in Hle. simpl. lia.
    + intros x Hx. pose proof (descending_behind _ _ _ _ Hdesc Hnth Hx) as Hold.
      unfold in_window. apply andb_false_iff. left. apply Z.leb_gt.
      subst granted. lia.
  - apply nth_error_None in Hnth.
    pose proof (filter_length_le (in_window self arrival) stamps). lia.
Qed.

(** In a descending list nothing up to position [n] is below the entry there. *)
Lemma descending_before (l : list Z) (n : nat) (old x : Z) :
  descending l -> nth_error l n = Some old -> In x (firstn (S n) l) -> old <= x.
Proof.
  revert l. induction n as [|n IH]; intros [|y l] Hdesc Hnth Hin;
    try discriminate.
  - simpl in *. injection Hnth as ->. destruct Hin as [->|[]]. lia.
  - destruct Hdesc as [Hy Hl]. change (nth_error l n = Some old) in Hnth.
    change (In x (y :: firstn (S n) l)) in Hin. destruct Hin as [<-|Hin].
    + apply Hy. eapply nth_error_In, Hnth.
    + now apply (IH l).
Qed.

(** No instant between the arrival and the one [next_slot] picks has a slot
    available: the caller is held back no longer than the limit demands. *)
Lemma next_slot_first (arrival at_ : Z) (stamps : list Z) :
  descending stamps ->
  (forall x, In x stamps -> x <= arrival) ->
  arrival <= at_ < next_slot self arrival stamps ->
  slot_available self at_ stamps = false.
Proof.
  intros Hdesc Hpast Hbetween. unfold slot_available. apply Nat.ltb_ge.
  unfold next_slot in Hbetween.
  destruct (nth_error stamps (limit self - 1)) as [old|] eqn:Hnth; [|lia].
  assert (length (firstn (S (limit self - 1)) stamps) = limit self) as Hlen.
  { rewrite length_firstn.
    assert (limit self - 1 < length stamps)%nat by (apply nth_error_Some; congruence).
    lia. }
  unfold window_count. rewrite <- (firstn_skipn (S (limit self - 1)) stamps).
  rewrite List.filter_app, length_app.
  enough (List.filter (in_window self at_) (firstn (S (limit self - 1)) stamps)
          = firstn (S (limit self - 1)) stamps) as -> by lia.
  apply forallb_filter_id, forallb_forall. intros x Hx.
  pose proof (descending_before _ _ _ _ Hdesc Hnth Hx) as Hold.
  assert (In x stamps) as Hin.
  { rewrite <- (firstn_skipn (S (limit self - 1)) stamps). apply in_or_app. now left. }
  specialize (Hpast x Hin). unfold in_window.
  apply andb_true_iff. split; apply Z.leb_le; lia.
Qed.

Lemma next_slot_waits (arrival : Z) (stamps : list Z) :
  arrival <= next_slot self arrival stamps.
Proof. clear limit_pos. unfold next_slot. destruct (nth_error _ _); lia. Qed.

(** One acquisition keeps state and log consistent. *)
Lemma acquire_consistent (delay : nat) (s : t) (log : list Z) :
  consistent self s log ->
  consistent self (snd (acquire self delay s))
    (fst (acquire self delay s) :: log).
Proof.
  intros [Hpast Hrecent Hdesc Hbound]. unfold acquire. simpl.
  set (arrival := clock s + Z.of_nat delay).
  set (granted := next_slot self arrival (recent s)).
  assert (clock s <= granted) as Hlater.
  { pose proof (next_slot_waits arrival (recent s)). subst arrival granted. lia. }
  assert (window_count self granted log < limit self)%nat as Hfree.
  { unfold window_count.
    rewrite <- (filter_narrows (in_window self granted)
                  (fun stamp => clock s - window self <=? stamp) log).
    - rewrite <- Hrecent. apply next_slot_available.
      rewrite Hrecent. now apply descending_filter.
    - intros x _ Hx. unfold in_window in Hx. apply andb_true_iff in Hx as [Hx _].
      apply Z.leb_le in Hx. apply Z.leb_le. lia. }
  constructor; simpl.
  - intros x [<-|Hx]; [lia|]. specialize (Hpast x Hx). lia.
  - rewrite Hrecent.
    rewrite filter_narrows; [reflexivity|].
    intros x Hx Hle. apply Z.leb_le in Hle. apply Z.leb_le. lia.
  - split; [|exact Hdesc]. intros y Hy. specialize (Hpast y Hy). lia.
  - intros at_. unfold window_count. simpl.
    destruct (in_window self at_ granted) eqn:Hin; [|apply Hbound].
    simpl. unfold window_count in Hfree.
    enough (length (List.filter (in_window self at_) log)
            <= length (List.filter (in_window self granted) log))%nat by lia.
    apply filter_count_mono. intros x Hx Hw.
    specialize (Hpast x Hx). unfold in_window in *.
    apply andb_true_iff in Hin as [_ Hg]. apply andb_true_iff in Hw as [Hlo _].
    apply Z.leb_le in Hg, Hlo. apply andb_true_iff. split; apply Z.leb_le; lia.
Qed.

(** In a consistent state [acquire] grants the first instant from the
    caller's arrival on at which a slot is available. *)
Lemma acquire_first_slot (delay : nat) (s : t) (log : list Z) (at_ : Z) :
  consistent self s log ->
  slot_available self (fst (acquire self delay s)) (recent s) = true
  /\ (clock s + Z.of_nat delay <= at_ < fst (acquire self delay s) ->
      slot_available self at_ (recent s) = false).
Proof.
  intros [Hpast Hrecent Hdesc _].
  assert (descending (recent s)) as Hsorted.
  { rewrite Hrecent. now apply descending_filter. }
  split.
  - unfold slot_available. apply Nat.ltb_lt. now apply next_slot_available.
  - intros Hbetween. apply (next_slot_first (clock s + Z.of_nat delay)).
    + exact Hsorted.
    + intros x Hx. rewrite Hrecent in Hx. apply filter_In in Hx as [Hx _].
      specialize (Hpast x Hx). lia.
    + exact Hbetween.
Qed.

Lemma init_consistent (now : Z) : consistent self (init now) [].
Proof.
  clear limit_pos.
  constructor; simpl; try easy. intros at_. unfold window_count. simpl. lia.
Qed.

Lemma acquisitions_consistent (delays : list nat) (s : t) (log : list Z) :
  consistent self s log ->
  consistent self (snd (acquisitions self delays s log))
    (fst (acquisitions self delays s log)).
Proof.
  revert s log. induction delays as [|delay delays IH]; intros s log Hc; simpl.
  - exact Hc.
  - apply IH. now apply acquire_consistent.
Qed.

Lemma acquisitions_length (delays : list nat) (s : t) (log : list Z) :
  length (fst (acquisitions self delays s log))
  = (length delays + length log)%nat.
Proof.
  clear limit_pos.
  revert s log. induction delays as [|delay delays IH]; intros s log; simpl.
  - reflexivity.
  - rewrite IH. simpl. lia.
Qed.

End LimiterFacts.

(** C2. For a rate limiter with [limit >= 1] and every sequence of
    acquisitions, no trailing window [[at_ - window, at_]] holds more than
    [limit] of the recorded acquisitions; every acquisition of the sequence is
    granted and recorded, and [acquire] only holds the caller back: the slot
    is granted at or after the caller's arrival. *)
Theorem rate_limiter_window_bound
    (self : RateLimiter) (now : Z) (delays : list nat) (at_ : Z) (delay : nat) :
  (1 <= limit self)%nat ->
  let log := fst (acquisitions self delays (init now) []) in
  let s := snd (acquisitions self delays (init now) []) in
  (window_count self at_ log <= limit self)%nat
  /\ length log = length delays
  /\ clock s + Z.of_nat delay <= fst (acquire self delay s).
Proof.
  intros Hlimit log s. repeat split.
  - apply (log_bounded self s log).
    apply (acquisitions_consistent self Hlimit). apply init_consistent.
  - subst log. rewrite acquisitions_length. simpl. lia.
  - apply next_slot_waits.
Qed.

(** A limiter of two slots per ten seconds under a burst of five callers. *)
Example burst_of_five :
  fst (acquisitions {| limit := 2; window := 10 |} [0; 0; 0; 0; 0]%nat (init 0) [])
  = [22; 11; 11; 0; 0].
Proof. reflexivity. Qed.

End RateLimiter.

(** ** prism/overlay/antisniper_api.py *)

Module AntiSniper.

Definition DENICK_ENDPOINT : string := "https://api.antisniper.net/denick".
Definition WINSTREAK_ENDPOINT : string := "https://api.antisniper.net/v2/player/winstreak".

(** Max requests per time window *)
Definition REQUEST_LIMIT : nat := 100.
Definition REQUEST_WINDOW : Z := 60.

(** Singleton for cache misses *)
Inductive Flag : Type := NOT_SET.

(** [LOWERCASE_DENICK_CACHE = TTLCache(maxsize=1024, ttl=60 * 60)] *)
Definition DENICK_MAXSIZE : nat := 1024.
Definition DENICK_TTL : Z := 60 * 60.
Definition DenickCache : Type := TTLCache.t (option string).
Definition LOWERCASE_DENICK_CACHE : DenickCache := [].

(** Class associating an api key with a RateLimiter instance *)
Record AntiSniperAPIKeyHolder := {
  key : string;
  limiter : RateLimiter.RateLimiter
}.

(** [AntiSniperAPIKeyHolder(key)], with the default limit and window. *)
Definition new_key_holder (key : string) : AntiSniperAPIKeyHolder :=
  {| key := key;
     limiter := {| RateLimiter.limit := REQUEST_LIMIT;
                   RateLimiter.window := REQUEST_WINDOW |} |}.

(** What [SESSION.get] hands back: the status and the result of
    [response.json()], [None] standing for a [JSONDecodeError]. *)
Record Response := { status_code : Z; json : option pyval }.

(** [bool(response)] is [response.ok]: no 4xx or 5xx status. *)
Definition ok (r : Response) : bool :=
  negb ((400 <=? status_code r) && (status_code r <? 600)).

(** The outcome of the request: a connection error or a response. *)
Inductive Reply : Type :=
  | RequestException
  | Got (response : Response).

(** The process as the module sees it: the shared denick cache, the clock and
    the requests sent so far (newest first). [DENICK_MUTEX] serialises the
    accesses to the cache; here they happen one at a time. *)
Record World := {
  cache : DenickCache;
  now : Z;
  sent : list string
}.

Definition with_cache (w : World) (c : DenickCache) : World :=
  {| cache := c; now := now w; sent := sent w |}.

(** A request under the rate limiter: it is recorded, and the clock moves on by
    the time spent waiting for a slot and for the answer. *)
Definition session_get (url : string) (latency : nat) (w : World) : World :=
  {| cache := cache w; now := now w + Z.of_nat latency; sent := url :: sent w |}.

Section Denick.
(** [str.lower] *)
Variable lower : string -> string.

(** Set the cache entry for nick, and return the uuid *)
Definition set_denick_cache (nick : string) (uuid : option string) (w : World)
  : option string * World :=
  (uuid,
   with_cache w (TTLCache.set DENICK_MAXSIZE DENICK_TTL (cache w) (now w) (lower nick) uuid)).

(** Get the cache entry for nick *)
Definition get_denick_cache (nick : string) (w : World) : option string + Flag :=
  match TTLCache.get (cache w) (now w) (lower nick) with
  | Some uuid => inl uuid
  | None => inr NOT_SET
  end.

(** Parse the response from the denick endpoint *)
Definition parse_denick_response (response_json : pyval) : res (option string) :=
  let! success := Py.get response_json "success" (PBool false) in
  if negb (truthy success) then Ret None else
  let! playerdata := Py.get response_json "player" (PStr "INVALIDTYPE") in
  match playerdata with
  | PNone => Ret None
  | PDict _ =>
      let! uuid := Py.get playerdata "uuid" PNone in
      match uuid with
      | PStr s => Ret (Some s)
      | _ => Ret None
      end
  | _ => Ret None
  end.

Definition denick_url (nick : string) (key_holder : AntiSniperAPIKeyHolder) : string :=
  DENICK_ENDPOINT +:+ "?key=" +:+ key key_holder +:+ "&nick=" +:+ nick.

Definition returning (r : option string * World) : res (option string) * World :=
  (Ret (fst r), snd r).

(** Get data about the given nick from the /denick API endpoint. [reply] is
    what the endpoint answers when asked, [latency] the time the request takes,
    waiting for the rate limiter included. *)
Definition denick (nick : string) (key_holder : AntiSniperAPIKeyHolder)
    (latency : nat) (reply : Reply) (w : World) : res (option string) * World :=
  match get_denick_cache nick w with
  | inl (Some cache_hit) => (Ret (Some cache_hit), w)
  | _ =>
      let w := session_get (denick_url nick key_holder) latency w in
      match reply with
      | RequestException => returning (set_denick_cache nick None w)
      | Got response =>
          if status_code response =? 404 then returning (set_denick_cache nick None w)
          else if negb (ok response) then returning (set_denick_cache nick None w)
          else
            match json response with
            | None => returning (set_denick_cache nick None w)
            | Some response_json =>
                match parse_denick_response response_json with
                | Ret uuid => returning (set_denick_cache nick uuid w)
                | Raise e => (Raise e, w)
                end
            end
      end
  end.

End Denick.

(** *** Estimated winstreaks *)

(** [Winstreaks] of prism/overlay/player.py: one [int | None] per gamemode. *)
Record Winstreaks := {
  overall : option pyval;
  solo : option pyval;
  doubles : option pyval;
  threes : option pyval;
  fours : option pyval
}.

(** Modelled from the spec: [MISSING_WINSTREAKS] (prism/overlay/player.py is not
    under src/), the placeholder that marks every gamemode's winstreak as
    unavailable. *)
Definition MISSING_WINSTREAKS : Winstreaks :=
  {| overall := None; solo := None; doubles := None; threes := None; fours := None |}.

(** Gamemode name and the prefix of its field in the payload, in dict order. *)
Definition DATA_NAMES : list (string * string) :=
  [("overall", "overall"); ("solo", "eight_one"); ("doubles", "eight_two");
   ("threes", "four_three"); ("fours", "four_four")].

(** One turn of the loop: read the field, keep it if it is an int. *)
Definition read_winstreak (response_json : pyval) (data_name : string)
  : res (option pyval) :=
  let! winstreak := Py.get response_json (data_name +:+ "_winstreak") PNone in
  Ret (match winstreak with
       | PNone => None
       | _ => if is_int winstreak then Some winstreak else None
       end).

Fixpoint collect_winstreaks (names : list (string * string)) (response_json : pyval)
    (winstreaks : gmap string (option pyval)) : res (gmap string (option pyval)) :=
  match names with
  | [] => Ret winstreaks
  | (gamemode, data_name) :: names =>
      let! winstreak := read_winstreak response_json data_name in
      collect_winstreaks names response_json (<[gamemode := winstreak]> winstreaks)
  end.

(** [winstreaks[gamemode]] *)
Definition getitem (winstreaks : gmap string (option pyval)) (gamemode : string)
  : res (option pyval) :=
  match winstreaks !! gamemode with
  | Some winstreak => Ret winstreak
  | None => Raise KeyError
  end.

(** Parse the reponse from the winstreaks endpoint *)
Definition parse_estimated_winstreaks_response (response_json : pyval)
  : res (Winstreaks * bool) :=
  let! success := Py.get response_json "success" (PBool false) in
  if negb (truthy success) then Ret (MISSING_WINSTREAKS, false) else
  let! winstreaks_accurate := Py.get response_json "overall_accurate" PNone in
  match winstreaks_accurate with
  | PBool accurate =>
      let! winstreaks := collect_winstreaks DATA_NAMES response_json ∅ in
      let! overall := getitem winstreaks "overall" in
      let! solo := getitem winstreaks "solo" in
      let! doubles := getitem winstreaks "doubles" in
      let! threes := getitem winstreaks "threes" in
      let! fours := getitem winstreaks "fours" in
      Ret ({| overall := overall; solo := solo; doubles := doubles;
              threes := threes; fours := fours |}, accurate)
  | _ => Ret (MISSING_WINSTREAKS, false)
  end.

Definition winstreak_url (uuid : string) (key_holder : AntiSniperAPIKeyHolder) : string :=
  WINSTREAK_ENDPOINT +:+ "?key=" +:+ key key_holder +:+ "&player=" +:+ uuid.

(** Get the estimated winstreaks of the given uuid; [reply] and [latency] as
    for [denick]. *)
Definition get_estimated_winstreaks (uuid : string) (key_holder : AntiSniperAPIKeyHolder)
    (latency : nat) (reply : Reply) (w : World) : res (Winstreaks * bool) * World :=
  let w := session_get (winstreak_url uuid key_holder) latency w in
  match reply with
  | RequestException => (Ret (MISSING_WINSTREAKS, false), w)
  | Got response =>
      if negb (ok response) then (Ret (MISSING_WINSTREAKS, false), w)
      else
        match json response with
        | None => (Ret (MISSING_WINSTREAKS, false), w)
        | Some response_json => (parse_estimated_winstreaks_response response_json, w)
        end
  end.

(** [str.lower] on ASCII letters, enough to run the functions on player names. *)
Definition lower_char (ch : Ascii.ascii) : Ascii.ascii :=
  let n := Ascii.nat_of_ascii ch in
  if ((65 <=? n) && (n <=? 90))%nat then Ascii.ascii_of_nat (n + 32) else ch.

Fixpoint ascii_lower (s : string) : string :=
  match s with
  | EmptyString => EmptyString
  | String ch s => String (lower_char ch) (ascii_lower s)
  end.

Definition start : World := {| cache := LOWERCASE_DENICK_CACHE; now := 0; sent := [] |}.

(** The same process with the clock reading [at_]. *)
Definition at_time (at_ : Z) (w : World) : World :=
  {| cache := cache w; now := at_; sent := sent w |}.

(** A run of cache writes, each at its own instant. *)
Fixpoint writes (lower : string -> string) (ops : list (Z * string * option string))
    (w : World) : World :=
  match ops with
  | [] => w
  | (at_, nick, uuid) :: ops =>
      writes lower ops (snd (set_denick_cache lower nick uuid (at_time at_ w)))
  end.

(** *** Outcomes of the denick request, as the caller would sort them *)

(** The request did not yield a uuid: connection error, 404 or another 4xx/5xx
    status, a body that is not JSON, an object whose [success] is absent or
    falsy, whose [player] is not an object, or whose [uuid] is not a string. *)
Inductive denick_failure : Reply -> Prop :=
  | fail_connection :
      denick_failure RequestException
  | fail_not_found r :
      status_code r = 404 -> denick_failure (Got r)
  | fail_status r :
      ok r = false -> denick_failure (Got r)
  | fail_json r :
      json r = None -> denick_failure (Got r)
  | fail_error_payload r d :
      json r = Some (PDict d) ->
      truthy (default (PBool false) (d !! "success")) = false ->
      denick_failure (Got r)
  | fail_player r d :
      json r = Some (PDict d) ->
      (forall p, d !! "player" <> Some (PDict p)) ->
      denick_failure (Got r)
  | fail_uuid r d p :
      json r = Some (PDict d) ->
      d !! "player" = Some (PDict p) ->
      (forall s, p !! "uuid" <> Some (PStr s)) ->
      denick_failure (Got r).

(** A well-formed answer carrying [uuid]. *)
Definition denick_success (reply : Reply) (uuid : string) : Prop :=
  exists r d p,
    reply = Got r /\ ok r = true /\ json r = Some (PDict d)
    /\ truthy (default (PBool false) (d !! "success")) = true
    /\ d !! "player" = Some (PDict p)
    /\ p !! "uuid" = Some (PStr uuid).

(** The winstreak request did not yield data. *)
Inductive winstreak_failure : Reply -> Prop :=
  | ws_fail_connection :
      winstreak_failure RequestException
  | ws_fail_status r :
      ok r = false -> winstreak_failure (Got r)
  | ws_fail_json r :
      json r = None -> winstreak_failure (Got r)
  | ws_fail_error_payload r d :
      json r = Some (PDict d) ->
      truthy (default (PBool false) (d !! "success")) = false ->
      winstreak_failure (Got r)
  | ws_fail_accurate r d :
      json r = Some (PDict d) ->
      (forall b, d !! "overall_accurate" <> Some (PBool b)) ->
      winstreak_failure (Got r).

(** What survives of one gamemode's field: an int, or nothing. *)
Definition kept_int (field : option pyval) : option pyval :=
  match field with
  | Some v => if is_int v then Some v else None
  | None => None
  end.

(** *** Concrete runs *)

Definition a_holder : AntiSniperAPIKeyHolder := new_key_holder "key".

Definition not_found_reply : Reply := Got {| status_code := 404; json := None |}.

Definition resolved_reply : Reply :=
  Got {| status_code := 200;
         json := Some (PDict {[ "success" := PBool true;
                                "player" := PDict {[ "uuid" := PStr "abc" ]} ]}) |}.

(** A payload whose [success] is the string "yes", not [true]. *)
Definition yes_payload : gmap string pyval :=
  {[ "success" := PStr "yes"; "player" := PDict {[ "uuid" := PStr "abc" ]} ]}.

Definition yes_reply : Reply :=
  Got {| status_code := 200; json := Some (PDict yes_payload) |}.

Definition yes_winstreak_payload : gmap string pyval :=
  {[ "success" := PStr "yes"; "overall_accurate" := PBool true;
     "overall_winstreak" := PInt 5; "eight_one_winstreak" := PStr "many" ]}.

Definition yes_winstreak_reply : Reply :=
  Got {| status_code := 200; json := Some (PDict yes_winstreak_payload) |}.

(** A body that is valid JSON but not an object. *)
Definition list_reply : Reply := Got {| status_code := 200; json := Some (PList []) |}.

Definition after_failure : World :=
  snd (denick ascii_lower "Nick" a_holder 1 not_found_reply start).

Definition after_success : World :=
  snd (denick ascii_lower "Nick" a_holder 1 resolved_reply start).

(** *** The denick cache *)

Section DenickCacheFacts.
Variable lower : string -> string.

Lemma DENICK_MAXSIZE_pos : (0 < DENICK_MAXSIZE)%nat.
Proof. unfold DENICK_MAXSIZE. lia. Qed.

(** Reading back what was just written, under any spelling of the nick. *)
Lemma get_after_set (n m : string) (u : option string) (w : World) (at_ : Z) :
  lower m = lower n ->
  get_denick_cache lower m (at_time at_ (snd (set_denick_cache lower n u w)))
  = if at_ <? now w + DENICK_TTL then inl u else inr NOT_SET.
Proof.
  intros Hlow. unfold get_denick_cache, set_denick_cache, at_time; simpl.
  rewrite Hlow, get_set by apply DENICK_MAXSIZE_pos.
  destruct (at_ <? now w + DENICK_TTL); reflexivity.
Qed.

(** Every key in the cache was put there by one of the writes. *)
Lemma writes_keys (ops : list (Z * string * option string)) (w : World) l :
  In l (cache (writes lower ops w)) ->
  In l (cache w)
  \/ exists at_ n u, In (at_, n, u) ops /\ TTLCache.key l = lower n.
Proof.
  revert w. induction ops as [|[[at_ n] u] ops IH]; intros w Hin; simpl in *.
  - now left.
  - apply IH in Hin as [Hin|(at' & n' & u' & Hop & Hk)].
    + simpl in Hin. apply set_links in Hin as [->|[Hin _]].
      * right. exists at_, n, u. split; [now left|reflexivity].
      * now left.
    + right. exists at', n', u'. split; [now right|exact Hk].
Qed.

Lemma get_never_set (ops : list (Z * string * option string)) (m : string) (at_ : Z) :
  (forall t n u, In (t, n, u) ops -> lower n <> lower m) ->
  get_denick_cache lower m (at_time at_ (writes lower ops start)) = inr NOT_SET.
Proof.
  intros Hnever. unfold get_denick_cache, TTLCache.get; simpl.
  rewrite find_absent; [reflexivity|].
  intros l Hl. apply writes_keys in Hl as [[]|(t & n & u & Hop & Hk)].
  unfold TTLCache.has_key. rewrite Hk. apply String.eqb_neq.
  exact (Hnever t n u Hop).
Qed.

End DenickCacheFacts.

(** C10. The denick cache is keyed by the lowercased nick: [set_denick_cache n u]
    returns [u]; while the entry is live (a lookup at [at_] with
    [now <= at_ < now + 60 * 60]) [get_denick_cache m] returns [u] for every
    [m] whose lowercase form is that of [n]; and a nick whose lowercase form
    was never written yields the [NOT_SET] sentinel, not [None]. *)
Theorem denick_cache_case_insensitive
    (lower : string -> string) (n m : string) (u : option string) (w : World) (at_ : Z)
    (ops : list (Z * string * option string)) (stranger : string) (later : Z) :
  lower m = lower n ->
  now w <= at_ < now w + DENICK_TTL ->
  (forall t n' u', In (t, n', u') ops -> lower n' <> lower stranger) ->
  fst (set_denick_cache lower n u w) = u
  /\ get_denick_cache lower m (at_time at_ (snd (set_denick_cache lower n u w))) = inl u
  /\ get_denick_cache lower stranger (at_time later (writes lower ops start)) = inr NOT_SET.
Proof.
  intros Hlow Hlive Hnever. split; [reflexivity|]. split.
  - rewrite get_after_set by exact Hlow.
    destruct (Z.ltb_spec at_ (now w + DENICK_TTL)); [reflexivity|lia].
  - now apply get_never_set.
Qed.

Lemma denick_cache_case_insensitive_witness :
  fst (set_denick_cache ascii_lower "NickName" (Some "abc") start) = Some "abc"
  /\ get_denick_cache ascii_lower "nICKnAME"
       (at_time 3599 (snd (set_denick_cache ascii_lower "NickName" (Some "abc") start)))
     = inl (Some "abc")
  /\ get_denick_cache ascii_lower "Other"
       (at_time 7 (writes ascii_lower [(0, "NickName", Some "abc"); (5, "third", None)] start))
     = inr NOT_SET.
Proof.
  apply (denick_cache_case_insensitive ascii_lower "NickName" "nICKnAME" (Some "abc")
           start 3599 [(0, "NickName", Some "abc"); (5, "third", None)] "Other" 7).
  - reflexivity.
  - unfold DENICK_TTL; simpl; lia.
  - intros t n' u' [H|[H|[]]]; inversion H; subst; vm_compute; discriminate.
Defined.

(** *** denick *)

(** What the request amounts to once the cache has been passed: the uuid to
    store, or the exception that escapes. *)
Definition denick_answer (reply : Reply) : res (option string) :=
  match reply with
  | RequestException => Ret None
  | Got response =>
      if status_code response =? 404 then Ret None
      else if negb (ok response) then Ret None
      else match json response with
           | None => Ret None
           | Some response_json => parse_denick_response response_json
           end
  end.

Section DenickFacts.
Variable lower : string -> string.
Variables (nick : string) (key_holder : AntiSniperAPIKeyHolder) (latency : nat).

Definition no_cached_uuid (w : World) : Prop :=
  forall cached, get_denick_cache lower nick w <> inl (Some cached).

(** Without a cached uuid, [denick] asks the endpoint and stores the answer. *)
Lemma denick_remote (reply : Reply) (w : World) :
  no_cached_uuid w ->
  denick lower nick key_holder latency reply w
  = let w1 := session_get (denick_url nick key_holder) latency w in
    match denick_answer reply with
    | Ret uuid => returning (set_denick_cache lower nick uuid w1)
    | Raise e => (Raise e, w1)
    end.
Proof.
  intros Hno. unfold denick, denick_answer.
  destruct (get_denick_cache lower nick w) as [[cached|]|] eqn:Hget;
    [now destruct (Hno cached)| |];
    (destruct reply as [|response]; [reflexivity|];
     destruct (status_code response =? 404); [reflexivity|];
     destruct (negb (ok response)); [reflexivity|];
     destruct (json response); reflexivity).
Qed.

Lemma parse_failure (reply : Reply) :
  denick_failure reply -> denick_answer reply = Ret None.
Proof.
  intros Hfail. destruct Hfail as
    [ | r H404 | r Hok | r Hjson | r d Hjson Hsucc | r d Hjson Hpl | r d p Hjson Hpl Huuid ];
    simpl; try reflexivity.
  - now rewrite H404.
  - rewrite Hok. simpl. now destruct (status_code r =? 404).
  - rewrite Hjson. destruct (status_code r =? 404), (negb (ok r)); reflexivity.
  - rewrite Hjson. destruct (status_code r =? 404), (negb (ok r)); try reflexivity.
    unfold parse_denick_response; simpl. now rewrite Hsucc.
  - rewrite Hjson. destruct (status_code r =? 404), (negb (ok r)); try reflexivity.
    unfold parse_denick_response; simpl.
    destruct (negb _); [reflexivity|].
    destruct (d !! "player") as [[]|] eqn:Hp; simpl; try reflexivity.
    now destruct (Hpl d0).
  - rewrite Hjson. destruct (status_code r =? 404), (negb (ok r)); try reflexivity.
    unfold parse_denick_response; simpl.
    destruct (negb _); [reflexivity|].
    rewrite Hpl; simpl.
    destruct (p !! "uuid") as [[]|] eqn:Hu; simpl; try reflexivity.
    now destruct (Huuid s).
Qed.

Lemma parse_success (reply : Reply) (uuid : string) :
  denick_success reply uuid -> denick_answer reply = Ret (Some uuid).
Proof.
  intros (r & d & p & -> & Hok & Hjson & Hsucc & Hpl & Huuid). simpl.
  assert ((status_code r =? 404) = false) as ->.
  { apply Z.eqb_neq. intros H404. unfold ok in Hok. rewrite H404 in Hok. discriminate. }
  rewrite Hok, Hjson. unfold parse_denick_response; simpl.
  rewrite Hsucc, Hpl; simpl. now rewrite Huuid.
Qed.

(** The entry just stored is served at the same instant. *)
Lemma get_set_same (uuid : option string) (w : World) :
  get_denick_cache lower nick (snd (set_denick_cache lower nick uuid w)) = inl uuid.
Proof.
  unfold get_denick_cache, set_denick_cache; simpl.
  rewrite get_set by apply DENICK_MAXSIZE_pos.
  destruct (Z.ltb_spec (now w) (now w + DENICK_TTL)) as [_|Hge]; [reflexivity|].
  unfold DENICK_TTL in Hge. lia.
Qed.

Lemma denick_stores (reply : Reply) (uuid : option string) (w : World) :
  no_cached_uuid w ->
  denick_answer reply = Ret uuid ->
  let done := denick lower nick key_holder latency reply w in
  fst done = Ret uuid /\ get_denick_cache lower nick (snd done) = inl uuid.
Proof.
  intros Hno Hans. simpl. rewrite denick_remote by exact Hno. simpl.
  rewrite Hans. split; [reflexivity|]. apply get_set_same.
Qed.

(** Without a cached uuid every call sends one request. *)
Lemma denick_sends (reply : Reply) (w : World) :
  no_cached_uuid w ->
  sent (snd (denick lower nick key_holder latency reply w))
  = denick_url nick key_holder :: sent w.
Proof.
  intros Hno. rewrite denick_remote by exact Hno. simpl.
  destruct (denick_answer reply); reflexivity.
Qed.

(** After a failed resolution the next one sends a request again, whenever it
    comes: the cached failure is passed over while it lives and gone after. *)
Lemma denick_again (failed reply : Reply) (pause : Z) (w : World) :
  no_cached_uuid w ->
  denick_failure failed ->
  let w1 := snd (denick lower nick key_holder latency failed w) in
  sent (snd (denick lower nick key_holder latency reply (at_time pause w1)))
  = denick_url nick key_holder :: denick_url nick key_holder :: sent w.
Proof.
  intros Hno Hfail. cbv zeta. rewrite (denick_remote failed) by exact Hno. cbv zeta.
  rewrite parse_failure by exact Hfail. unfold returning.
  cbn [snd]. rewrite denick_sends; [reflexivity|].
  intros cached. rewrite get_after_set by reflexivity.
  destruct (pause <? _); discriminate.
Qed.

End DenickFacts.

(** C1, as the code has it. Only a cached uuid is served from the cache: with
    an unexpired uuid for [nick] in the cache, [denick] returns it, sends no
    request and leaves the process as it was; with an unexpired failure
    ([None]) in the cache, [denick] does not use it and sends the request
    again; so two resolutions of an alias the endpoint cannot resolve send two
    requests, whenever the second one comes. *)
Theorem denick_serves_cached_uuid_only
    (lower : string -> string) (nick : string) (key_holder : AntiSniperAPIKeyHolder)
    (latency : nat) (reply failed : Reply) (uuid : string) (pause : Z)
    (w_hit w_failed w : World) :
  get_denick_cache lower nick w_hit = inl (Some uuid) ->
  get_denick_cache lower nick w_failed = inl None ->
  no_cached_uuid lower nick w ->
  denick_failure failed ->
  denick lower nick key_holder latency reply w_hit = (Ret (Some uuid), w_hit)
  /\ sent (snd (denick lower nick key_holder latency reply w_failed))
     = denick_url nick key_holder :: sent w_failed
  /\ sent (snd (denick lower nick key_holder latency failed
                  (at_time pause (snd (denick lower nick key_holder latency failed w)))))
     = denick_url nick key_holder :: denick_url nick key_holder :: sent w.
Proof.
  intros Hhit Hfailed Hno Hfail. repeat split.
  - unfold denick. now rewrite Hhit.
  - apply denick_sends. intros cached. rewrite Hfailed. discriminate.
  - now apply denick_again.
Qed.

Lemma denick_serves_cached_uuid_only_witness :
  denick ascii_lower "NICK" a_holder 1 not_found_reply after_success
  = (Ret (Some "abc"), after_success)
  /\ sent (snd (denick ascii_lower "NICK" a_holder 1 not_found_reply after_failure))
     = denick_url "NICK" a_holder :: sent after_failure
  /\ sent (snd (denick ascii_lower "NICK" a_holder 1 not_found_reply
                  (at_time 2 (snd (denick ascii_lower "NICK" a_holder 1 not_found_reply start)))))
     = denick_url "NICK" a_holder :: denick_url "NICK" a_holder :: sent start.
Proof.
  apply (denick_serves_cached_uuid_only ascii_lower "NICK" a_holder 1 not_found_reply
           not_found_reply "abc" 2 after_success after_failure start).
  - reflexivity.
  - reflexivity.
  - intros cached. vm_compute. discriminate.
  - apply fail_not_found. reflexivity.
Defined.

(** C1 fails on the code: after one failed resolution the failure is in the
    cache and unexpired, yet the second resolution of the same alias sends a
    second request. *)
Lemma denick_negative_cache_counterexample :
  get_denick_cache ascii_lower "Nick" after_failure = inl None
  /\ length (sent after_failure) = 1%nat
  /\ now after_failure < DENICK_TTL
  /\ fst (denick ascii_lower "Nick" a_holder 1 not_found_reply after_failure) = Ret None
  /\ length (sent (snd (denick ascii_lower "Nick" a_holder 1 not_found_reply after_failure)))
     <> 1%nat.
Proof. repeat split; vm_compute; congruence. Qed.

(** C4, as the code has it. With no uuid for [nick] in the cache, every failed
    request (connection error, 404, another 4xx/5xx status, unparseable body,
    an object whose [success] is absent or falsy, whose [player] is not an
    object, or whose [uuid] is missing or not a string) makes [denick] return
    [None] without raising and store [None] for the nick; a well-formed answer
    (truthy [success], [player] object with a string [uuid]) makes it return
    and store the uuid. *)
Theorem denick_failures_are_cached
    (lower : string -> string) (nick : string) (key_holder : AntiSniperAPIKeyHolder)
    (latency : nat) (failed answered : Reply) (uuid : string) (w : World) :
  no_cached_uuid lower nick w ->
  denick_failure failed ->
  denick_success answered uuid ->
  (fst (denick lower nick key_holder latency failed w) = Ret None
   /\ get_denick_cache lower nick (snd (denick lower nick key_holder latency failed w))
      = inl None)
  /\ (fst (denick lower nick key_holder latency answered w) = Ret (Some uuid)
      /\ get_denick_cache lower nick (snd (denick lower nick key_holder latency answered w))
         = inl (Some uuid)).
Proof.
  intros Hno Hfail Hsucc. split.
  - apply denick_stores; [exact Hno|]. now apply parse_failure.
  - apply denick_stores; [exact Hno|]. now apply parse_success.
Qed.

Lemma denick_failures_are_cached_witness :
  (fst (denick ascii_lower "Nick" a_holder 1 not_found_reply start) = Ret None
   /\ get_denick_cache ascii_lower "Nick"
        (snd (denick ascii_lower "Nick" a_holder 1 not_found_reply start)) = inl None)
  /\ (fst (denick ascii_lower "Nick" a_holder 1 resolved_reply start) = Ret (Some "abc")
      /\ get_denick_cache ascii_lower "Nick"
           (snd (denick ascii_lower "Nick" a_holder 1 resolved_reply start))
         = inl (Some "abc")).
Proof.
  apply (denick_failures_are_cached ascii_lower "Nick" a_holder 1
           not_found_reply resolved_reply "abc" start).
  - intros cached. vm_compute. discriminate.
  - apply fail_not_found. reflexivity.
  - eexists _, _, _. repeat split; vm_compute; reflexivity.
Defined.

(** C4 fails on the code: a payload whose [success] is not [true] (here the
    string "yes") is not treated as an error; [denick] returns the uuid. *)
Lemma denick_truthy_success_counterexample :
  yes_payload !! "success" = Some (PStr "yes")
  /\ fst (denick ascii_lower "Nick" a_holder 1 yes_reply start) = Ret (Some "abc")
  /\ fst (denick ascii_lower "Nick" a_holder 1 yes_reply start) <> Ret None.
Proof. repeat split; vm_compute; congruence. Qed.

(** A body that parses as JSON but is not an object makes [response_json.get]
    raise, and the exception leaves [denick]; nothing is cached. *)
Lemma denick_list_body_raises :
  denick ascii_lower "Nick" a_holder 1 list_reply start
  = (Raise AttributeError,
     session_get (denick_url "Nick" a_holder) 1 start).
Proof. reflexivity. Qed.

(** *** Winstreaks *)

Lemma parse_winstreaks_payload (d : gmap string pyval) (accurate : bool) :
  truthy (default (PBool false) (d !! "success")) = true ->
  d !! "overall_accurate" = Some (PBool accurate) ->
  parse_estimated_winstreaks_response (PDict d)
  = Ret ({| overall := kept_int (d !! "overall_winstreak");
            solo := kept_int (d !! "eight_one_winstreak");
            doubles := kept_int (d !! "eight_two_winstreak");
            threes := kept_int (d !! "four_three_winstreak");
            fours := kept_int (d !! "four_four_winstreak") |}, accurate).
Proof.
  intros Hsucc Hacc. unfold parse_estimated_winstreaks_response. simpl.
  rewrite Hsucc, Hacc. simpl.
  assert (forall o : option pyval,
             match default PNone o with
             | PNone => None
             | _ => if is_int (default PNone o) then Some (default PNone o) else None
             end = kept_int o) as Hkept.
  { intros [[]|]; reflexivity. }
  rewrite !Hkept. reflexivity.
Qed.

Lemma parse_winstreaks_failure (reply : Reply) (uuid : string)
    (key_holder : AntiSniperAPIKeyHolder) (latency : nat) (w : World) :
  winstreak_failure reply ->
  fst (get_estimated_winstreaks uuid key_holder latency reply w)
  = Ret (MISSING_WINSTREAKS, false).
Proof.
  intros Hfail. unfold get_estimated_winstreaks.
  destruct Hfail as [ | r Hok | r Hjson | r d Hjson Hsucc | r d Hjson Hacc ].
  - reflexivity.
  - now rewrite Hok.
  - rewrite Hjson. now destruct (negb (ok r)).
  - rewrite Hjson. destruct (negb (ok r)); [reflexivity|]. simpl.
    unfold parse_estimated_winstreaks_response; simpl. now rewrite Hsucc.
  - rewrite Hjson. destruct (negb (ok r)); [reflexivity|]. simpl.
    unfold parse_estimated_winstreaks_response; simpl.
    destruct (negb _); [reflexivity|].
    destruct (d !! "overall_accurate") as [[]|] eqn:Ha; try reflexivity.
    now destruct (Hacc b).
Qed.

(** C6, as the code has it. A failed winstreak request (connection error,
    4xx/5xx status, unparseable body, an object whose [success] is absent or
    falsy or whose [overall_accurate] is not a boolean) yields
    [(MISSING_WINSTREAKS, False)] without raising. On an object with truthy
    [success] and boolean [overall_accurate], each gamemode keeps its own
    field when it is an int and gets [None] otherwise, whatever the other
    fields hold. *)
Theorem winstreaks_degrade_per_gamemode
    (uuid : string) (key_holder : AntiSniperAPIKeyHolder) (latency : nat)
    (failed : Reply) (r : Response) (d : gmap string pyval) (accurate : bool) (w : World) :
  winstreak_failure failed ->
  ok r = true ->
  json r = Some (PDict d) ->
  truthy (default (PBool false) (d !! "success")) = true ->
  d !! "overall_accurate" = Some (PBool accurate) ->
  fst (get_estimated_winstreaks uuid key_holder latency failed w)
  = Ret (MISSING_WINSTREAKS, false)
  /\ fst (get_estimated_winstreaks uuid key_holder latency (Got r) w)
     = Ret ({| overall := kept_int (d !! "overall_winstreak");
               solo := kept_int (d !! "eight_one_winstreak");
               doubles := kept_int (d !! "eight_two_winstreak");
               threes := kept_int (d !! "four_three_winstreak");
               fours := kept_int (d !! "four_four_winstreak") |}, accurate).
Proof.
  intros Hfail Hok Hjson Hsucc Hacc. split.
  - now apply parse_winstreaks_failure.
  - unfold get_estimated_winstreaks. rewrite Hok, Hjson. simpl.
    now apply parse_winstreaks_payload.
Qed.

(** Only the solo field is malformed; it alone degrades. *)
Definition mixed_winstreak_payload : gmap string pyval :=
  {[ "success" := PBool true; "overall_accurate" := PBool false;
     "overall_winstreak" := PInt 12; "eight_one_winstreak" := PStr "many";
     "four_four_winstreak" := PInt 3 ]}.

Lemma winstreaks_degrade_per_gamemode_witness :
  fst (get_estimated_winstreaks "uuid" a_holder 1 not_found_reply start)
  = Ret (MISSING_WINSTREAKS, false)
  /\ fst (get_estimated_winstreaks "uuid" a_holder 1
            (Got {| status_code := 200; json := Some (PDict mixed_winstreak_payload) |}) start)
     = Ret ({| overall := Some (PInt 12); solo := None; doubles := None;
               threes := None; fours := Some (PInt 3) |}, false).
Proof.
  apply (winstreaks_degrade_per_gamemode "uuid" a_holder 1 not_found_reply
           {| status_code := 200; json := Some (PDict mixed_winstreak_payload) |}
           mixed_winstreak_payload false start).
  - apply ws_fail_status. reflexivity.
  - reflexivity.
  - reflexivity.
  - vm_compute. reflexivity.
  - vm_compute. reflexivity.
Defined.

(** C6 fails on the code: with [success] the string "yes" (not [true]) the
    payload is read as data, not answered with the placeholder. *)
Lemma winstreaks_truthy_success_counterexample :
  yes_winstreak_payload !! "success" = Some (PStr "yes")
  /\ fst (get_estimated_winstreaks "uuid" a_holder 1 yes_winstreak_reply start)
     = Ret ({| overall := Some (PInt 5); solo := None; doubles := None;
               threes := None; fours := None |}, true)
  /\ fst (get_estimated_winstreaks "uuid" a_holder 1 yes_winstreak_reply start)
     <> Ret (MISSING_WINSTREAKS, false).
Proof. repeat split; vm_compute; congruence. Qed.

Lemma winstreaks_list_body_raises :
  fst (get_estimated_winstreaks "uuid" a_holder 1 list_reply start) = Raise AttributeError.
Proof. reflexivity. Qed.

End AntiSniper.

(** The bound at the limiter of an AntiSniper key holder: 100 requests per 60
    seconds. *)
Lemma rate_limiter_window_bound_witness :
  let self := AntiSniper.limiter AntiSniper.a_holder in
  let log := fst (RateLimiter.acquisitions self [0; 0; 7]%nat (RateLimiter.init 0) []) in
  let s := snd (RateLimiter.acquisitions self [0; 0; 7]%nat (RateLimiter.init 0) []) in
  (RateLimiter.window_count self 30 log <= RateLimiter.limit self)%nat
  /\ length log = length [0; 0; 7]%nat
  /\ RateLimiter.clock s + Z.of_nat 2 <= fst (RateLimiter.acquire self 2 s).
Proof.
  apply (RateLimiter.rate_limiter_window_bound
           (AntiSniper.limiter AntiSniper.a_holder) 0 [0; 0; 7]%nat 30 2).
  simpl. unfold AntiSniper.REQUEST_LIMIT. lia.
Defined.

(** ** The expiry contract of the TTL cache *)

(** C3. After [set k v] at time [T] on a cache with room for at least one
    entry, [get k] is a hit with [v] at every time [t] with
    [T <= t < T + ttl] and a miss at every time [t >= T + ttl]; and whatever
    any cache serves is an entry stored under that key that has not expired. *)
Theorem ttl_cache_expiry_contract {V : Type}
    (maxsize : nat) (ttl : Z) (c : TTLCache.t V) (T : Z) (k : string) (v : V)
    (t_in t_out : Z) :
  (0 < maxsize)%nat ->
  T <= t_in < T + ttl ->
  T + ttl <= t_out ->
  TTLCache.get (TTLCache.set maxsize ttl c T k v) t_in k = Some v
  /\ TTLCache.get (TTLCache.set maxsize ttl c T k v) t_out k = None
  /\ (forall (c' : TTLCache.t V) (t : Z) (k' : string),
        match TTLCache.get c' t k' with
        | Some v' =>
            exists l, In l c' /\ TTLCache.key l = k' /\ TTLCache.value l = v'
                      /\ t < TTLCache.expires l
        | None => True
        end).
Proof.
  intros Hmax Hin Hout. rewrite !get_set by exact Hmax. repeat split.
  - destruct (Z.ltb_spec t_in (T + ttl)); [reflexivity|lia].
  - destruct (Z.ltb_spec t_out (T + ttl)); [lia|reflexivity].
  - intros c' t k'. destruct (TTLCache.get c' t k') as [v'|] eqn:Hget; [|exact I].
    now apply get_Some.
Qed.

Lemma ttl_cache_expiry_contract_witness :
  TTLCache.get (TTLCache.set 1024 3600 [] 100 "nick" (Some "abc")) 3699 "nick"
  = Some (Some "abc")
  /\ TTLCache.get (TTLCache.set 1024 3600 [] 100 "nick" (Some "abc")) 3700 "nick" = None
  /\ (forall (c' : TTLCache.t (option string)) (t : Z) (k' : string),
        match TTLCache.get c' t k' with
        | Some v' =>
            exists l, In l c' /\ TTLCache.key l = k' /\ TTLCache.value l = v'
                      /\ t < TTLCache.expires l
        | None => True
        end).
Proof.
  apply (ttl_cache_expiry_contract 1024 3600 [] 100 "nick" (Some "abc") 3699 3700); lia.
Defined.

(** ** The controller's view of a stats fetch *)

Module Controller.

(** Marker for a fetch that failed for now. *)
Inductive ProcessingError : Type := ERROR_DURING_PROCESSING.

(** [Mapping[str, object] | None | ProcessingError] *)
Definition Playerdata : Type := option (gmap string pyval) + ProcessingError.

(** The stand-in for [prism.overlay.controller.get_playerdata] that
    tests/prism/overlay/test_controller.py patches in: it raises the error the
    test has armed, or returns the prepared data. *)
Definition patched_get_playerdata (error : option exn) (returned_playerdata : gmap string pyval)
    (uuid user_id : string) : res (gmap string pyval) :=
  if negb (String.eqb uuid "uuid") then Raise AssertionError
  else if negb (String.eqb user_id "1234") then Raise AssertionError
  else match error with
       | Some e => Raise e
       | None => Ret returned_playerdata
       end.

(** Modelled from the spec: [RealOverlayController.get_playerdata]
    (prism/overlay/controller.py is not under src/), after sections 4.6 and 7
    and the assertions of tests/prism/overlay/test_controller.py. The fetch is
    made on every call; a not-found error becomes the terminal result [None],
    any other error the placeholder, and data comes back with the time it was
    received (the test looks at that time for data only). [fetched] is what
    the underlying fetch did, [time_ms] the wall clock in milliseconds. *)
Definition get_playerdata (fetched : res (gmap string pyval)) (time_ms : Z)
  : res (Z * Playerdata) :=
  match fetched with
  | Ret playerdata => Ret (time_ms, inl (Some playerdata))
  | Raise HypixelPlayerNotFoundError => Ret (time_ms, inl None)
  | Raise _ => Ret (time_ms, inr ERROR_DURING_PROCESSING)
  end.

(** The second component of the pair the call returns. *)
Definition playerdata_of (returned : res (Z * Playerdata)) : res Playerdata :=
  let! pair := returned in Ret (snd pair).

(** C5. A fetch that fails with a not-found error yields the terminal result
    [None]; a throttling error, an invalid-key error or any other API error
    yields [ERROR_DURING_PROCESSING]; and whatever error the fetch raises, the
    call returns instead of raising. *)
Theorem get_playerdata_error_taxonomy (time_ms : Z) :
  playerdata_of (get_playerdata (Raise HypixelPlayerNotFoundError) time_ms)
  = Ret (inl None)
  /\ playerdata_of (get_playerdata (Raise HypixelAPIThrottleError) time_ms)
     = Ret (inr ERROR_DURING_PROCESSING)
  /\ playerdata_of (get_playerdata (Raise HypixelAPIKeyError) time_ms)
     = Ret (inr ERROR_DURING_PROCESSING)
  /\ playerdata_of (get_playerdata (Raise HypixelAPIError) time_ms)
     = Ret (inr ERROR_DURING_PROCESSING)
  /\ (forall e, exists result, get_playerdata (Raise e) time_ms = Ret result).
Proof.
  repeat split. intros e. destruct e; eexists; reflexivity.
Qed.

(** The run of test_real_overlay_controller_get_playerdata: three errors, then
    not found, then data, all for the same uuid on the same controller. *)
Example test_real_overlay_controller_get_playerdata (returned_playerdata : gmap string pyval) :
  let call error :=
    playerdata_of
      (get_playerdata (patched_get_playerdata error returned_playerdata "uuid" "1234") 5) in
  call (Some HypixelAPIError) = Ret (inr ERROR_DURING_PROCESSING)
  /\ call (Some HypixelAPIKeyError) = Ret (inr ERROR_DURING_PROCESSING)
  /\ call (Some HypixelAPIThrottleError) = Ret (inr ERROR_DURING_PROCESSING)
  /\ call (Some HypixelPlayerNotFoundError) = Ret (inl None)
  /\ call None = Ret (inl (Some returned_playerdata))
  /\ get_playerdata (patched_get_playerdata None returned_playerdata "uuid" "1234") 5
     = Ret (5, inl (Some returned_playerdata)).
Proof. repeat split. Qed.

End Controller.

(** ** prism/overlay/settings.py *)

Module Settings.

(** Value for a key in known_nicks *)
Record NickValue := { uuid : string; comment : string }.

(** Complete dict of settings *)
Module SettingsDict.
Record t (KeyDict : Type) := {
  hypixel_api_key : string;
  antisniper_api_key : option string;
  use_antisniper_api : bool;
  known_nicks : gmap string NickValue;
  autodenick_teammates : bool;
  autoselect_logfile : bool;
  show_on_tab : bool;
  show_on_tab_keybind : KeyDict;
  check_for_updates : bool;
  hide_dead_players : bool;
  disable_overrideredirect : bool;
  hide_with_alpha : bool;
  alpha_hundredths : Z
}.
Arguments hypixel_api_key {KeyDict} _.
Arguments antisniper_api_key {KeyDict} _.
Arguments use_antisniper_api {KeyDict} _.
Arguments known_nicks {KeyDict} _.
Arguments autodenick_teammates {KeyDict} _.
Arguments autoselect_logfile {KeyDict} _.
Arguments show_on_tab {KeyDict} _.
Arguments show_on_tab_keybind {KeyDict} _.
Arguments check_for_updates {KeyDict} _.
Arguments hide_dead_players {KeyDict} _.
Arguments disable_overrideredirect {KeyDict} _.
Arguments hide_with_alpha {KeyDict} _.
Arguments alpha_hundredths {KeyDict} _.
End SettingsDict.

(** [threading.Lock] *)
Inductive Lock : Type := Unlocked | Locked.

(** Class holding user settings for the application *)
Record Settings (Key : Type) := {
  hypixel_api_key : string;
  antisniper_api_key : option string;
  use_antisniper_api : bool;
  known_nicks : gmap string NickValue;
  autodenick_teammates : bool;
  autoselect_logfile : bool;
  show_on_tab : bool;
  show_on_tab_keybind : Key;
  check_for_updates : bool;
  hide_dead_players : bool;
  disable_overrideredirect : bool;
  hide_with_alpha : bool;
  alpha_hundredths : Z;
  path : string;
  mutex : Lock
}.
Arguments hypixel_api_key {Key} _.
Arguments antisniper_api_key {Key} _.
Arguments use_antisniper_api {Key} _.
Arguments known_nicks {Key} _.
Arguments autodenick_teammates {Key} _.
Arguments autoselect_logfile {Key} _.
Arguments show_on_tab {Key} _.
Arguments show_on_tab_keybind {Key} _.
Arguments check_for_updates {Key} _.
Arguments hide_dead_players {Key} _.
Arguments disable_overrideredirect {Key} _.
Arguments hide_with_alpha {Key} _.
Arguments alpha_hundredths {Key} _.
Arguments path {Key} _.
Arguments mutex {Key} _.

Section WithKeybinds.
(** [Key], [KeyDict], [construct_key] and [Key.to_dict] of
    prism/overlay/keybinds.py, which is not under src/. *)
Context {Key KeyDict : Type}.
Variable construct_key : KeyDict -> Key.
Variable key_to_dict : Key -> KeyDict.

Definition from_dict (source : SettingsDict.t KeyDict) (path : string) : Settings Key :=
  {| hypixel_api_key := SettingsDict.hypixel_api_key source;
     antisniper_api_key := SettingsDict.antisniper_api_key source;
     use_antisniper_api := SettingsDict.use_antisniper_api source;
     known_nicks := SettingsDict.known_nicks source;
     autodenick_teammates := SettingsDict.autodenick_teammates source;
     autoselect_logfile := SettingsDict.autoselect_logfile source;
     show_on_tab := SettingsDict.show_on_tab source;
     show_on_tab_keybind := construct_key (SettingsDict.show_on_tab_keybind source);
     check_for_updates := SettingsDict.check_for_updates source;
     hide_dead_players := SettingsDict.hide_dead_players source;
     disable_overrideredirect := SettingsDict.disable_overrideredirect source;
     hide_with_alpha := SettingsDict.hide_with_alpha source;
     alpha_hundredths := SettingsDict.alpha_hundredths source;
     path := path;
     mutex := Unlocked |}.

Definition to_dict (self : Settings Key) : SettingsDict.t KeyDict :=
  {| SettingsDict.hypixel_api_key := hypixel_api_key self;
     SettingsDict.antisniper_api_key := antisniper_api_key self;
     SettingsDict.use_antisniper_api := use_antisniper_api self;
     SettingsDict.known_nicks := known_nicks self;
     SettingsDict.autodenick_teammates := autodenick_teammates self;
     SettingsDict.autoselect_logfile := autoselect_logfile self;
     SettingsDict.show_on_tab := show_on_tab self;
     SettingsDict.show_on_tab_keybind := key_to_dict (show_on_tab_keybind self);
     SettingsDict.check_for_updates := check_for_updates self;
     SettingsDict.hide_dead_players := hide_dead_players self;
     SettingsDict.disable_overrideredirect := disable_overrideredirect self;
     SettingsDict.hide_with_alpha := hide_with_alpha self;
     SettingsDict.alpha_hundredths := alpha_hundredths self |}.

(** Update the settings from the settings dict *)
Definition update_from (self : Settings Key) (new_settings : SettingsDict.t KeyDict)
  : Settings Key :=
  {| hypixel_api_key := SettingsDict.hypixel_api_key new_settings;
     antisniper_api_key := SettingsDict.antisniper_api_key new_settings;
     use_antisniper_api := SettingsDict.use_antisniper_api new_settings;
     known_nicks := SettingsDict.known_nicks new_settings;
     autodenick_teammates := SettingsDict.autodenick_teammates new_settings;
     autoselect_logfile := SettingsDict.autoselect_logfile new_settings;
     show_on_tab := SettingsDict.show_on_tab new_settings;
     show_on_tab_keybind := construct_key (SettingsDict.show_on_tab_keybind new_settings);
     check_for_updates := SettingsDict.check_for_updates new_settings;
     hide_dead_players := SettingsDict.hide_dead_players new_settings;
     disable_overrideredirect := SettingsDict.disable_overrideredirect new_settings;
     hide_with_alpha := SettingsDict.hide_with_alpha new_settings;
     alpha_hundredths := SettingsDict.alpha_hundredths new_settings;
     path := path self;
     mutex := mutex self |}.

End WithKeybinds.

(** The keybind [fill_missing_settings] falls back to. *)
Record SpecialKeyDict := { name : string; vk : option Z; key_type : string }.

Definition tab_keybind : SpecialKeyDict :=
  {| name := "tab"; vk := None; key_type := "special" |}.

(** Settings as [fill_missing_settings] produces them from an empty file. *)
Definition default_settings (hypixel_key : string) : SettingsDict.t SpecialKeyDict :=
  {| SettingsDict.hypixel_api_key := hypixel_key;
     SettingsDict.antisniper_api_key := Some "insert-your-key-here";
     SettingsDict.use_antisniper_api := false;
     SettingsDict.known_nicks := ∅;
     SettingsDict.autodenick_teammates := true;
     SettingsDict.autoselect_logfile := true;
     SettingsDict.show_on_tab := true;
     SettingsDict.show_on_tab_keybind := tab_keybind;
     SettingsDict.check_for_updates := true;
     SettingsDict.hide_dead_players := true;
     SettingsDict.disable_overrideredirect := false;
     SettingsDict.hide_with_alpha := false;
     SettingsDict.alpha_hundredths := 80 |}.

(** C9. Loading settings and writing them back preserves every field: if
    [Key.to_dict] undoes [construct_key] on the keybind of [d], then
    [from_dict d p] followed by [to_dict] gives [d], and so does
    [update_from d] on any settings object followed by [to_dict]. *)
Theorem settings_round_trip {Key KeyDict : Type}
    (construct_key : KeyDict -> Key) (key_to_dict : Key -> KeyDict)
    (d : SettingsDict.t KeyDict) (p : string) (self : Settings Key) :
  key_to_dict (construct_key (SettingsDict.show_on_tab_keybind d))
  = SettingsDict.show_on_tab_keybind d ->
  to_dict key_to_dict (from_dict construct_key d p) = d
  /\ to_dict key_to_dict (update_from construct_key self d) = d.
Proof.
  intros Hkey. destruct d. unfold to_dict, from_dict, update_from. simpl in *.
  rewrite Hkey. split; reflexivity.
Qed.

Lemma settings_round_trip_witness :
  to_dict id (from_dict id (default_settings "hypixel-key") "settings.toml")
  = default_settings "hypixel-key"
  /\ to_dict id
       (update_from id (from_dict id (default_settings "old-key") "settings.toml")
          (default_settings "hypixel-key"))
     = default_settings "hypixel-key".
Proof.
  apply (settings_round_trip id id (default_settings "hypixel-key") "settings.toml"
           (from_dict id (default_settings "old-key") "settings.toml")).
  reflexivity.
Defined.

(** [update_from] leaves the path and the lock of the object alone. *)
Lemma update_from_keeps_path {Key KeyDict : Type} (construct_key : KeyDict -> Key)
    (self : Settings Key) (d : SettingsDict.t KeyDict) :
  path (update_from construct_key self d) = path self
  /\ mutex (update_from construct_key self d) = mutex self.
Proof. split; reflexivity. Qed.

End Settings.

(** ** prism/overlay/settings.py: reading the settings file *)

Module FillSettings.
Import Settings.

Definition PLACEHOLDER_API_KEY : string := "insert-your-key-here".

Definition value_or_default {A : Type} (value : option A) (dflt : A) : A :=
  match value with
  | Some v => v
  | None => dflt
  end.

(** Return True if given key is a valid Hypixel API key *)
Definition api_key_is_valid (key : string) : bool :=
  negb (String.eqb key PLACEHOLDER_API_KEY) && (5 <? String.length key)%nat.

(** Return value, settings_updated *)
Definition get_boolean_setting (incomplete_settings : gmap string pyval) (key : string)
    (settings_updated : bool) (dflt : bool) : bool * bool :=
  match incomplete_settings !! key with
  | Some (PBool value) => (value, settings_updated)
  | _ => (dflt, true)
  end.

(** One entry of known_nicks: a dict with a string [uuid] and a string
    [comment]. *)
Definition nick_value (value : pyval) : option NickValue :=
  match value with
  | PDict d =>
      match d !! "uuid", d !! "comment" with
      | Some (PStr uuid), Some (PStr comment) => Some {| uuid := uuid; comment := comment |}
      | _, _ => None
      end
  | _ => None
  end.

(** The value of an [int]; a [bool] is the int 0 or 1. *)
Definition int_value (x : pyval) : option Z :=
  match x with
  | PInt z => Some z
  | PBool b => Some (if b then 1 else 0)
  | _ => None
  end.

Section Fill.
(** [KeyDict] and [construct_key_dict] of prism/overlay/keybinds.py, which is
    not under src/; [special] reads a [SpecialKeyDict] as a [KeyDict];
    [get_api_key] is what the callback answers when it is called. *)
Context {KeyDict : Type}.
Variable construct_key_dict : gmap string pyval -> option KeyDict.
Variable special : SpecialKeyDict -> KeyDict.
Variable get_api_key : string.

(** The blocks of [fill_missing_settings], each from the flag so far to the
    value and the flag after. *)
Definition hypixel_setting (incomplete_settings : gmap string pyval)
    (settings_updated : bool) : string * bool :=
  match incomplete_settings !! "hypixel_api_key" with
  | Some (PStr hypixel_api_key) =>
      if api_key_is_valid hypixel_api_key then (hypixel_api_key, settings_updated)
      else (get_api_key, true)
  | _ => (get_api_key, true)
  end.

Definition antisniper_setting (incomplete_settings : gmap string pyval)
    (settings_updated : bool) : string * bool :=
  match incomplete_settings !! "antisniper_api_key" with
  | Some (PStr antisniper_api_key) =>
      if api_key_is_valid antisniper_api_key then (antisniper_api_key, settings_updated)
      else
        (* Don't make any updates if the key is already set to the placeholder *)
        (PLACEHOLDER_API_KEY,
         if String.eqb antisniper_api_key PLACEHOLDER_API_KEY then settings_updated
         else true)
  | _ => (PLACEHOLDER_API_KEY, true)
  end.

Definition known_nicks_source (incomplete_settings : gmap string pyval)
    (settings_updated : bool) : gmap string pyval * bool :=
  match incomplete_settings !! "known_nicks" with
  | Some (PDict source) => (source, settings_updated)
  | _ => (∅, true)
  end.

(** One turn of the loop over [known_nicks_source.items()]. *)
Definition keep_nick (key : string) (value : pyval)
    (acc : gmap string NickValue * bool) : gmap string NickValue * bool :=
  match nick_value value with
  | Some nick => (<[key := nick]> (fst acc), snd acc)
  | None => (fst acc, true)
  end.

Definition known_nicks_setting (incomplete_settings : gmap string pyval)
    (settings_updated : bool) : gmap string NickValue * bool :=
  let source := known_nicks_source incomplete_settings settings_updated in
  map_fold keep_nick (∅, snd source) (fst source).

Definition keybind_setting (incomplete_settings : gmap string pyval)
    (settings_updated : bool) : KeyDict * bool :=
  match incomplete_settings !! "show_on_tab_keybind" with
  | Some (PDict sot_keybind_source) =>
      match construct_key_dict sot_keybind_source with
      | Some sot_keybind_key_dict => (sot_keybind_key_dict, settings_updated)
      | None => (special tab_keybind, true)
      end
  | _ => (special tab_keybind, true)
  end.

Definition alpha_setting (incomplete_settings : gmap string pyval)
    (settings_updated : bool) : Z * bool :=
  match incomplete_settings !! "alpha_hundredths" with
  | Some alpha_hundredths =>
      match int_value alpha_hundredths with
      | Some alpha =>
          if (10 <=? alpha) && (alpha <=? 100) then (alpha, settings_updated)
          else (80, true)
      | None => (80, true)
      end
  | None => (80, true)
  end.

(** Get settings from `incomplete_settings` and fill with defaults if missing *)
Definition fill_missing_settings (incomplete_settings : gmap string pyval)
  : SettingsDict.t KeyDict * bool :=
  let hypixel_api_key := hypixel_setting incomplete_settings false in
  let antisniper_api_key := antisniper_setting incomplete_settings (snd hypixel_api_key) in
  let use_antisniper_api :=
    get_boolean_setting incomplete_settings "use_antisniper_api"
      (snd antisniper_api_key) false in
  let known_nicks := known_nicks_setting incomplete_settings (snd use_antisniper_api) in
  let autodenick_teammates :=
    get_boolean_setting incomplete_settings "autodenick_teammates" (snd known_nicks) true in
  let autoselect_logfile :=
    get_boolean_setting incomplete_settings "autoselect_logfile"
      (snd autodenick_teammates) true in
  let show_on_tab :=
    get_boolean_setting incomplete_settings "show_on_tab" (snd autoselect_logfile) true in
  let show_on_tab_keybind := keybind_setting incomplete_settings (snd show_on_tab) in
  let check_for_updates :=
    get_boolean_setting incomplete_settings "check_for_updates"
      (snd show_on_tab_keybind) true in
  let hide_dead_players :=
    get_boolean_setting incomplete_settings "hide_dead_players"
      (snd check_for_updates) true in
  let disable_overrideredirect :=
    get_boolean_setting incomplete_settings "disable_overrideredirect"
      (snd hide_dead_players) false in
  let hide_with_alpha :=
    get_boolean_setting incomplete_settings "hide_with_alpha"
      (snd disable_overrideredirect) false in
  let alpha_hundredths := alpha_setting incomplete_settings (snd hide_with_alpha) in
  ({| SettingsDict.hypixel_api_key := fst hypixel_api_key;
      SettingsDict.antisniper_api_key := Some (fst antisniper_api_key);
      SettingsDict.use_antisniper_api := fst use_antisniper_api;
      SettingsDict.known_nicks := fst known_nicks;
      SettingsDict.autodenick_teammates := fst autodenick_teammates;
      SettingsDict.autoselect_logfile := fst autoselect_logfile;
      SettingsDict.show_on_tab := fst show_on_tab;
      SettingsDict.show_on_tab_keybind := fst show_on_tab_keybind;
      SettingsDict.check_for_updates := fst check_for_updates;
      SettingsDict.hide_dead_players := fst hide_dead_players;
      SettingsDict.disable_overrideredirect := fst disable_overrideredirect;
      SettingsDict.hide_with_alpha := fst hide_with_alpha;
      SettingsDict.alpha_hundredths := fst alpha_hundredths |},
   snd alpha_hundredths).

End Fill.

(** *** What the blocks keep and what they replace *)

Implicit Types (m : gmap string pyval) (u : bool).

Lemma get_boolean_setting_kept m key u dflt :
  snd (get_boolean_setting m key u dflt) = false ->
  u = false /\ m !! key = Some (PBool (fst (get_boolean_setting m key u dflt))).
Proof.
  unfold get_boolean_setting.
  destruct (m !! key) as [[]|]; simpl; intros H; try discriminate. now subst.
Qed.


(** The stored antisniper key is kept when it is valid or the placeholder. *)
Definition keepable (key : string) : Prop :=
  api_key_is_valid key = true \/ key = PLACEHOLDER_API_KEY.

Lemma antisniper_setting_kept m u :
  snd (antisniper_setting m u) = false ->
  u = false
  /\ m !! "antisniper_api_key" = Some (PStr (fst (antisniper_setting m u)))
  /\ keepable (fst (antisniper_setting m u)).
Proof.
  unfold antisniper_setting, keepable.
  destruct (m !! "antisniper_api_key") as [[]|]; simpl; try discriminate.
  destruct (api_key_is_valid s) eqn:Hvalid; simpl.
  - intros ->. auto.
  - destruct (String.eqb_spec s PLACEHOLDER_API_KEY) as [->|]; [|discriminate].
    intros ->. auto.
Qed.


(** The loop over the stored nicks: the entries that are well-formed, and the
    flag raised by the others. *)
Lemma keep_nicks_fold (source : gmap string pyval) u :
  let kept := map_fold keep_nick (∅, u) source in
  (forall key, fst kept !! key = source !! key ≫= nick_value)
  /\ (snd kept = false <->
      u = false /\ forall key value, source !! key = Some value -> is_Some (nick_value value)).
Proof.
  apply (map_fold_weak_ind
    (fun (kept : gmap string NickValue * bool) (source : gmap string pyval) =>
       (forall key, fst kept !! key = source !! key ≫= nick_value)
       /\ (snd kept = false <->
           u = false /\ forall key value, source !! key = Some value -> is_Some (nick_value value)))).
  - split.
    + intros key. now rewrite !lookup_empty.
    + simpl. split; [intros ->; split; [reflexivity|]|tauto].
      intros key value. now rewrite lookup_empty.
  - intros key value source' kept Hfresh [Hlook Hflag]. unfold keep_nick.
    destruct (nick_value value) as [nick|] eqn:Hnick; simpl; split.
    + intros key'. destruct (decide (key = key')) as [<-|Hne].
      * rewrite !lookup_insert_eq. simpl. now rewrite Hnick.
      * rewrite !lookup_insert_ne by exact Hne. apply Hlook.
    + rewrite Hflag. split; intros [Hu Hall]; (split; [exact Hu|]).
      * intros key' value'. destruct (decide (key = key')) as [<-|Hne].
        -- rewrite lookup_insert_eq. intros [= <-]. rewrite Hnick. eauto.
        -- rewrite lookup_insert_ne by exact Hne. apply Hall.
      * intros key' value' Hkey'. apply (Hall key' value').
        rewrite lookup_insert_ne; [exact Hkey'|]. intros <-. congruence.
    + intros key'. rewrite Hlook. destruct (decide (key = key')) as [<-|Hne].
      * rewrite lookup_insert_eq, Hfresh. simpl. now rewrite Hnick.
      * now rewrite lookup_insert_ne by exact Hne.
    + split; [discriminate|]. intros [_ Hall].
      destruct (Hall key value) as [nick Hsome]; [apply lookup_insert_eq|]. congruence.
Qed.

(** [source] holds exactly the nicks [nicks], every entry well-formed. *)
Definition nicks_stored (source : gmap string pyval) (nicks : gmap string NickValue) : Prop :=
  forall key, nick_value <$> source !! key = Some <$> nicks !! key.

Lemma known_nicks_setting_kept m u :
  snd (known_nicks_setting m u) = false ->
  u = false
  /\ exists source, m !! "known_nicks" = Some (PDict source)
                    /\ nicks_stored source (fst (known_nicks_setting m u)).
Proof.
  unfold known_nicks_setting, known_nicks_source. intros H.
  pose proof (fun source u' => proj2 (keep_nicks_fold source u')) as Hflag.
  simpl in Hflag.
  destruct (m !! "known_nicks") as [[]|]; simpl in *;
    try (apply Hflag in H as [H _]; discriminate).
  pose proof (proj1 (keep_nicks_fold d u)) as Hlook. simpl in Hlook.
  apply Hflag in H as [-> Hall]. split; [reflexivity|].
  exists d. split; [reflexivity|]. intros key. rewrite Hlook.
  destruct (d !! key) as [value|] eqn:Hkey; simpl; [|reflexivity].
  destruct (Hall key value Hkey) as [nick ->]. reflexivity.
Qed.


Lemma alpha_setting_range m u :
  10 <= fst (alpha_setting m u) <= 100.
Proof.
  unfold alpha_setting.
  destruct (m !! "alpha_hundredths") as [value|]; simpl; [|lia].
  destruct (int_value value) as [alpha|]; simpl; [|lia].
  destruct ((10 <=? alpha) && (alpha <=? 100)) eqn:Hrange; simpl; [|lia].
  apply andb_true_iff in Hrange as [?%Z.leb_le ?%Z.leb_le]. lia.
Qed.

Lemma alpha_setting_kept m u :
  snd (alpha_setting m u) = false ->
  u = false /\ m !! "alpha_hundredths" = Some (PInt (fst (alpha_setting m u))).
Proof.
  unfold alpha_setting.
  destruct (m !! "alpha_hundredths") as [value|]; simpl; try discriminate.
  destruct value; simpl; try discriminate.
  - destruct b; simpl; discriminate.
  - destruct ((10 <=? z) && (z <=? 100)); simpl; try discriminate. intros ->. auto.
Qed.

Lemma alpha_setting_valid m u alpha :
  m !! "alpha_hundredths" = Some (PInt alpha) -> 10 <= alpha <= 100 ->
  alpha_setting m u = (alpha, u).
Proof.
  unfold alpha_setting. intros -> Hrange. simpl.
  destruct ((10 <=? alpha) && (alpha <=? 100)) eqn:Hin; [reflexivity|].
  apply andb_false_iff in Hin as [?%Z.leb_gt|?%Z.leb_gt]; lia.
Qed.

Section HypixelFacts.
Variable get_api_key : string.

Lemma hypixel_setting_kept m u :
  snd (hypixel_setting get_api_key m u) = false ->
  u = false
  /\ m !! "hypixel_api_key" = Some (PStr (fst (hypixel_setting get_api_key m u)))
  /\ api_key_is_valid (fst (hypixel_setting get_api_key m u)) = true.
Proof.
  unfold hypixel_setting.
  destruct (m !! "hypixel_api_key") as [[]|]; simpl; try discriminate.
  destruct (api_key_is_valid s) eqn:Hvalid; simpl; try discriminate.
  intros ->. auto.
Qed.


End HypixelFacts.

Section KeybindFacts.
Context {KeyDict : Type}.
Variable construct_key_dict : gmap string pyval -> option KeyDict.
Variable special : SpecialKeyDict -> KeyDict.

Lemma keybind_setting_kept m u :
  snd (keybind_setting construct_key_dict special m u) = false ->
  u = false
  /\ exists source, m !! "show_on_tab_keybind" = Some (PDict source)
       /\ construct_key_dict source
          = Some (fst (keybind_setting construct_key_dict special m u)).
Proof.
  unfold keybind_setting.
  destruct (m !! "show_on_tab_keybind") as [[]|]; simpl; try discriminate.
  destruct (construct_key_dict d) eqn:Hkey; simpl; try discriminate.
  intros ->. eauto.
Qed.


End KeybindFacts.

(** *** get_settings *)

(** A call that touches the file: done, or stopped by an [OSError]. *)
Inductive io (A : Type) : Type :=
  | Done (a : A)
  | OSError.
Arguments Done {A} a.
Arguments OSError {A}.

(** What [toml.dump] was handed: the raw mapping with the placeholder added,
    or the complete settings of [flush_to_disk]. *)
Inductive Written (KeyDict : Type) : Type :=
  | Raw (incomplete_settings : gmap string pyval)
  | Flushed (settings : SettingsDict.t KeyDict).
Arguments Raw {KeyDict} incomplete_settings.
Arguments Flushed {KeyDict} settings.

Section GetSettings.
Context {Key KeyDict : Type}.
Variable construct_key : KeyDict -> Key.
Variable key_to_dict : Key -> KeyDict.
Variable construct_key_dict : gmap string pyval -> option KeyDict.
Variable special : SpecialKeyDict -> KeyDict.
Variable get_api_key : string.

(** [path.open("w")] then [toml.dump]: the write is added to those made so
    far when the file can be written. *)
Definition dump (writable : bool) (content : Written KeyDict) (writes : list (Written KeyDict))
  : io (list (Written KeyDict)) :=
  if writable then Done (writes ++ [content])%list else OSError.

Definition flush_to_disk (self : Settings Key) (writable : bool)
    (writes : list (Written KeyDict)) : io (list (Written KeyDict)) :=
  dump writable (Flushed (to_dict key_to_dict self)) writes.

(** The first step of [get_settings]: a file without hypixel_api_key gets the
    placeholder and is written back. *)
Definition add_placeholder (incomplete_settings : gmap string pyval) (writable : bool)
  : io (gmap string pyval * list (Written KeyDict)) :=
  match incomplete_settings !! "hypixel_api_key" with
  | Some _ => Done (incomplete_settings, [])
  | None =>
      let incomplete_settings :=
        <["hypixel_api_key" := PStr PLACEHOLDER_API_KEY]> incomplete_settings in
      match dump writable (Raw incomplete_settings) [] with
      | Done writes => Done (incomplete_settings, writes)
      | OSError => OSError
      end
  end.

(** Read the stored settings into a Settings object. [on_disk] is what
    [read_settings(path)] yields, [None] when reading or parsing fails;
    [writable] tells whether the file can be opened for writing. The result
    comes with the writes made, oldest first. *)
Definition get_settings (on_disk : option (gmap string pyval)) (writable : bool)
    (path : string) : io (Settings Key * list (Written KeyDict)) :=
  match add_placeholder (default ∅ on_disk) writable with
  | OSError => OSError
  | Done (incomplete_settings, writes) =>
      let filled :=
        fill_missing_settings construct_key_dict special get_api_key incomplete_settings in
      let settings := from_dict construct_key (fst filled) path in
      if snd filled then
        match flush_to_disk settings writable writes with
        | Done writes => Done (settings, writes)
        | OSError => OSError
        end
      else Done (settings, writes)
  end.

(** The mapping [m] holds the settings [d], complete and valid: every key is
    there with a value of its type, the keys pass the check (the antisniper
    key may be the placeholder), the keybind parses, alpha is in range. *)
Record stored (m : gmap string pyval) (d : SettingsDict.t KeyDict) : Prop := {
  stored_hypixel :
    m !! "hypixel_api_key" = Some (PStr (SettingsDict.hypixel_api_key d))
    /\ api_key_is_valid (SettingsDict.hypixel_api_key d) = true;
  stored_antisniper :
    exists key, SettingsDict.antisniper_api_key d = Some key
                /\ m !! "antisniper_api_key" = Some (PStr key) /\ keepable key;
  stored_use_antisniper :
    m !! "use_antisniper_api" = Some (PBool (SettingsDict.use_antisniper_api d));
  stored_nicks :
    exists source, m !! "known_nicks" = Some (PDict source)
                   /\ nicks_stored source (SettingsDict.known_nicks d);
  stored_autodenick :
    m !! "autodenick_teammates" = Some (PBool (SettingsDict.autodenick_teammates d));
  stored_autoselect :
    m !! "autoselect_logfile" = Some (PBool (SettingsDict.autoselect_logfile d));
  stored_show_on_tab :
    m !! "show_on_tab" = Some (PBool (SettingsDict.show_on_tab d));
  stored_keybind :
    exists source, m !! "show_on_tab_keybind" = Some (PDict source)
                   /\ construct_key_dict source = Some (SettingsDict.show_on_tab_keybind d);
  stored_check_for_updates :
    m !! "check_for_updates" = Some (PBool (SettingsDict.check_for_updates d));
  stored_hide_dead :
    m !! "hide_dead_players" = Some (PBool (SettingsDict.hide_dead_players d));
  stored_overrideredirect :
    m !! "disable_overrideredirect"
    = Some (PBool (SettingsDict.disable_overrideredirect d));
  stored_hide_with_alpha :
    m !! "hide_with_alpha" = Some (PBool (SettingsDict.hide_with_alpha d));
  stored_alpha :
    m !! "alpha_hundredths" = Some (PInt (SettingsDict.alpha_hundredths d))
    /\ 10 <= SettingsDict.alpha_hundredths d <= 100
}.

(** When nothing was replaced, the mapping held what is returned. *)
Lemma fill_kept (m : gmap string pyval) :
  snd (fill_missing_settings construct_key_dict special get_api_key m) = false ->
  stored m (fst (fill_missing_settings construct_key_dict special get_api_key m)).
Proof.
  unfold fill_missing_settings. cbn [fst snd]. intros H.
  apply alpha_setting_kept in H as [H Halpha].
  apply get_boolean_setting_kept in H as [H Hhide_with_alpha].
  apply get_boolean_setting_kept in H as [H Hoverride].
  apply get_boolean_setting_kept in H as [H Hhide_dead].
  apply get_boolean_setting_kept in H as [H Hcheck].
  apply keybind_setting_kept in H as [H Hkeybind].
  apply get_boolean_setting_kept in H as [H Hshow].
  apply get_boolean_setting_kept in H as [H Hautoselect].
  apply get_boolean_setting_kept in H as [H Hautodenick].
  apply known_nicks_setting_kept in H as [H Hnicks].
  apply get_boolean_setting_kept in H as [H Huse].
  apply antisniper_setting_kept in H as [H [Hanti Hkeepable]].
  apply hypixel_setting_kept in H as [_ Hhypixel].
  constructor; cbn [SettingsDict.hypixel_api_key SettingsDict.antisniper_api_key
    SettingsDict.use_antisniper_api SettingsDict.known_nicks
    SettingsDict.autodenick_teammates SettingsDict.autoselect_logfile
    SettingsDict.show_on_tab SettingsDict.show_on_tab_keybind
    SettingsDict.check_for_updates SettingsDict.hide_dead_players
    SettingsDict.disable_overrideredirect SettingsDict.hide_with_alpha
    SettingsDict.alpha_hundredths]; try assumption.
  - eauto.
  - split; [exact Halpha|]. apply alpha_setting_range.
Qed.


End GetSettings.

(** *** A sample file *)

(** A keybind reader to run the functions with: a dict with a string [name]
    is a special key. *)
Definition read_special (source : gmap string pyval) : option SpecialKeyDict :=
  match source !! "name" with
  | Some (PStr key_name) => Some {| name := key_name; vk := None; key_type := "special" |}
  | _ => None
  end.









(** X5. A settings file that cannot be read, or that lacks hypixel_api_key,
    is written twice when it can be written: first with the placeholder added,
    then with the complete settings; the key in the settings returned is the
    answer of [get_api_key], and what the file ends with is those settings. *)
Theorem get_settings_asks_for_key {Key KeyDict : Type}
    (construct_key : KeyDict -> Key) (key_to_dict : Key -> KeyDict)
    (construct_key_dict : gmap string pyval -> option KeyDict)
    (special : SpecialKeyDict -> KeyDict) (get_api_key : string)
    (on_disk : option (gmap string pyval)) (path : string) :
  default ∅ on_disk !! "hypixel_api_key" = None ->
  exists settings,
    get_settings construct_key key_to_dict construct_key_dict special get_api_key
      on_disk true path
    = Done (settings,
            [Raw (<["hypixel_api_key" := PStr PLACEHOLDER_API_KEY]> (default ∅ on_disk));
             Flushed (to_dict key_to_dict settings)])
    /\ hypixel_api_key settings = get_api_key
    /\ Settings.path settings = path.
Proof.
  intros Hmissing. unfold get_settings, add_placeholder, flush_to_disk, dump.
  rewrite Hmissing.
  set (m := <["hypixel_api_key" := PStr PLACEHOLDER_API_KEY]> (default ∅ on_disk)).
  assert (m !! "hypixel_api_key" = Some (PStr PLACEHOLDER_API_KEY)) as Hplaceholder
    by apply lookup_insert_eq.
  destruct (snd (fill_missing_settings construct_key_dict special get_api_key m))
    eqn:Hflag.
  - eexists. split; [reflexivity|]. split; [|reflexivity].
    unfold fill_missing_settings, from_dict, hypixel_setting. cbn.
    now rewrite Hplaceholder.
  - apply fill_kept in Hflag as [[Hkey Hvalid] _ _ _ _ _ _ _ _ _ _ _ _].
    remember (SettingsDict.hypixel_api_key
                (fst (fill_missing_settings construct_key_dict special get_api_key m)))
      as kept.
    rewrite Hplaceholder in Hkey. injection Hkey as <-. discriminate.
Qed.

Lemma get_settings_asks_for_key_witness :
  exists settings,
    get_settings id id read_special id "asked-key" None true "settings.toml"
    = Done (settings,
            [Raw (<["hypixel_api_key" := PStr PLACEHOLDER_API_KEY]> (default ∅ None));
             Flushed (to_dict id settings)])
    /\ hypixel_api_key settings = "asked-key"
    /\ Settings.path settings = "settings.toml".
Proof.
  apply (get_settings_asks_for_key id id read_special id "asked-key" None "settings.toml").
  reflexivity.
Defined.

End FillSettings.

(** ** prism/overlay/output/overlay/settings_page.py: the alpha slider *)

Module SettingsPage.

(** Clamp the alpha_hundredths to a valid range *)
Definition clamp_alpha (alpha_hundredths : Z) : Z :=
  Z.min 100 (Z.max 10 alpha_hundredths).

(** [GraphicsSection.get]: the slider's value, clamped. *)
Definition get (alpha_hundredths_variable : Z) : Z :=
  clamp_alpha alpha_hundredths_variable.

(** X6. Whatever the slider holds, the alpha the settings page hands over is
    between 10 and 100, clamping leaves exactly the values of that range
    alone, and a settings file holding the value passes the check of
    [fill_missing_settings]: the alpha is kept and no update is flagged. *)
Theorem clamped_alpha_survives_reload
    (alpha_hundredths_variable : Z) (m : gmap string pyval) (settings_updated : bool) :
  let alpha := get alpha_hundredths_variable in
  10 <= alpha <= 100
  /\ (clamp_alpha alpha_hundredths_variable = alpha_hundredths_variable
      <-> 10 <= alpha_hundredths_variable <= 100)
  /\ FillSettings.alpha_setting (<["alpha_hundredths" := PInt alpha]> m) settings_updated
     = (alpha, settings_updated).
Proof.
  unfold get, clamp_alpha. cbv zeta. split; [lia|]. split; [lia|].
  apply FillSettings.alpha_setting_valid; [apply lookup_insert_eq|lia].
Qed.

End SettingsPage.

(** ** prism/overlay/user_interaction.py *)

Module UserInteraction.

(** *** Looking for an API key in the logfile *)

Section SearchLogfile.
(** [Event] and [parse_logline] of prism/overlay/events.py and
    prism/overlay/parsing.py, which are not under src/; [new_api_key] tells
    whether an event is a [NewAPIKeyEvent] and gives its key. *)
Context {Event : Type}.
Variable parse_logline : string -> option Event.
Variable new_api_key : Event -> option string.

(** The key a line announces, if it announces one. *)
Definition key_on (line : string) : option string :=
  parse_logline line ≫= new_api_key.

(** The loop of [search_logfile_for_key] over what the file watcher yields:
    a line, or [None] each time the end of the file is reached. Every item
    comes with the state of [key_found_event] when it is looked at. *)
Fixpoint search_loop (items : list (bool * option string))
    (has_reached_end : bool) (found_key : option string) : option string :=
  match items with
  | [] => None
  | (key_found_event_is_set, line) :: items =>
      if key_found_event_is_set then None   (* The other thread found a new key *)
      else
        match line with
        | None =>
            match found_key with
            | Some key => Some key          (* The found key is the last key *)
            | None => search_loop items true found_key
            end
        | Some line =>
            match key_on line with
            | Some key =>
                (* We have once reached the end of the logfile *)
                if has_reached_end then Some key
                else search_loop items has_reached_end (Some key)
            | None => search_loop items has_reached_end found_key
            end
        end
  end.

(** Read self.loglines until we find a new API key *)
Definition search_logfile_for_key (items : list (bool * option string)) : option string :=
  search_loop items false None.

(** A line read while the event is not set. *)
Definition a_line (line : string) : bool * option string := (false, Some line).

(** The end of the file reached while the event is not set. *)
Definition the_end : bool * option string := (false, None).

(** The last key announced on the lines, or [found_key] if there is none. *)
Definition last_key (lines : list string) (found_key : option string) : option string :=
  foldl (fun found line => match key_on line with Some key => Some key | None => found end)
        found_key lines.

End SearchLogfile.

(** *** Looking for an API key in the settings file *)





(** A log the functions can be run on: a line announces a key when it starts
    with "KEY ", and the key is the rest of the line. *)
Definition sample_parse (line : string) : option string :=
  if String.prefix "KEY " line then Some (String.substring 4 (String.length line - 4) line)
  else None.

Section SearchLogfileFacts.
Context {Event : Type}.
Variable parse_logline : string -> option Event.
Variable new_api_key : Event -> option string.

(** Lines read before the end of the file only move the found key along. *)
Lemma search_loop_lines (lines : list string) (rest : list (bool * option string))
    (found_key : option string) :
  search_loop parse_logline new_api_key (map a_line lines ++ rest) false found_key
  = search_loop parse_logline new_api_key rest false
      (last_key parse_logline new_api_key lines found_key).
Proof.
  revert found_key. induction lines as [|line lines IH]; intros found_key; simpl.
  - reflexivity.
  - destruct (key_on parse_logline new_api_key line) as [key|]; apply IH.
Qed.

(** An item that announces no key. *)
Definition quiet (item : bool * option string) : Prop :=
  item = the_end
  \/ exists line, item = a_line line /\ key_on parse_logline new_api_key line = None.

(** Once the end was reached without a key, items without a key change
    nothing. *)
Lemma search_loop_quiet (items rest : list (bool * option string)) :
  Forall quiet items ->
  search_loop parse_logline new_api_key (items ++ rest) true None
  = search_loop parse_logline new_api_key rest true None.
Proof.
  induction 1 as [|item items [->|(line & -> & Hquiet)] _ IH]; simpl.
  - reflexivity.
  - exact IH.
  - now rewrite Hquiet.
Qed.

Lemma search_loop_stops (before rest : list (bool * option string))
    (line : option string) (has_reached_end : bool) (found_key : option string) :
  search_loop parse_logline new_api_key (before ++ (true, line) :: rest)
    has_reached_end found_key
  = search_loop parse_logline new_api_key before has_reached_end found_key.
Proof.
  revert has_reached_end found_key.
  induction before as [|[is_set item] before IH]; intros has_reached_end found_key; simpl.
  - reflexivity.
  - destruct is_set; [reflexivity|]. destruct item as [read|].
    + destruct (key_on parse_logline new_api_key read); [destruct has_reached_end|]; auto.
    + destruct found_key; auto.
Qed.

Lemma search_loop_origin (items : list (bool * option string))
    (has_reached_end : bool) (found_key : option string) (key : string) :
  search_loop parse_logline new_api_key items has_reached_end found_key = Some key ->
  found_key = Some key
  \/ exists line, In (a_line line) items
                  /\ key_on parse_logline new_api_key line = Some key.
Proof.
  revert has_reached_end found_key.
  induction items as [|[is_set item] items IH]; intros has_reached_end found_key; simpl.
  - discriminate.
  - destruct is_set; [discriminate|]. destruct item as [line|].
    + destruct (key_on parse_logline new_api_key line) as [key'|] eqn:Hline.
      * destruct has_reached_end.
        -- intros [= ->]. right. exists line. auto.
        -- intros H. apply IH in H as [[= ->]|(line' & Hin & Hkey)].
           ++ right. exists line. auto.
           ++ right. exists line'. auto.
      * intros H. apply IH in H as [->|(line' & Hin & Hkey)]; [now left|].
        right. exists line'. auto.
    + destruct found_key as [key'|].
      * intros [= ->]. now left.
      * intros H. apply IH in H as [[=]|(line' & Hin & Hkey)].
        right. exists line'. auto.
Qed.

End SearchLogfileFacts.

(** X7. When the part of the logfile that is there already announces keys,
    [search_logfile_for_key] returns the last of them as soon as it reaches
    the end of the file, whatever is written later. *)
Theorem search_logfile_last_key {Event : Type}
    (parse_logline : string -> option Event) (new_api_key : Event -> option string)
    (lines : list string) (rest : list (bool * option string)) (key : string) :
  last_key parse_logline new_api_key lines None = Some key ->
  search_logfile_for_key parse_logline new_api_key (map a_line lines ++ the_end :: rest)
  = Some key.
Proof.
  intros Hlast. unfold search_logfile_for_key.
  rewrite search_loop_lines, Hlast. reflexivity.
Qed.

Lemma search_logfile_last_key_witness :
  search_logfile_for_key sample_parse Some
    (map a_line ["hello"; "KEY old-key"; "chat"; "KEY new-key"; "bye"]
     ++ the_end :: [a_line "KEY later-key"])
  = Some "new-key".
Proof.
  apply (search_logfile_last_key sample_parse Some
           ["hello"; "KEY old-key"; "chat"; "KEY new-key"; "bye"]
           [a_line "KEY later-key"] "new-key").
  reflexivity.
Defined.

(** X8. When the part of the logfile that is there announces no key,
    [search_logfile_for_key] keeps reading past the end of the file and
    returns the first key announced afterwards. *)
Theorem search_logfile_first_new_key {Event : Type}
    (parse_logline : string -> option Event) (new_api_key : Event -> option string)
    (lines : list string) (later rest : list (bool * option string))
    (line key : string) :
  last_key parse_logline new_api_key lines None = None ->
  Forall (quiet parse_logline new_api_key) later ->
  key_on parse_logline new_api_key line = Some key ->
  search_logfile_for_key parse_logline new_api_key
    (map a_line lines ++ the_end :: later ++ a_line line :: rest)
  = Some key.
Proof.
  intros Hnone Hquiet Hkey. unfold search_logfile_for_key.
  rewrite search_loop_lines, Hnone. simpl.
  rewrite search_loop_quiet by exact Hquiet. simpl. now rewrite Hkey.
Qed.

Lemma search_logfile_first_new_key_witness :
  search_logfile_for_key sample_parse Some
    (map a_line ["hello"; "chat"]
     ++ the_end :: [a_line "more chat"; the_end] ++ a_line "KEY new-key" :: [the_end])
  = Some "new-key".
Proof.
  apply (search_logfile_first_new_key sample_parse Some ["hello"; "chat"]
           [a_line "more chat"; the_end] [the_end] "KEY new-key" "new-key").
  - reflexivity.
  - constructor; [right; exists "more chat"; split; reflexivity|].
    constructor; [left; reflexivity|constructor].
  - reflexivity.
Defined.

(** X9. Once [key_found_event] is set, [search_logfile_for_key] reads no
    further: its result is the one it had reached on the items before, a key
    if it had returned one by then and [None] otherwise. *)
Theorem search_logfile_stops_when_found {Event : Type}
    (parse_logline : string -> option Event) (new_api_key : Event -> option string)
    (before rest : list (bool * option string)) (line : option string) :
  search_logfile_for_key parse_logline new_api_key (before ++ (true, line) :: rest)
  = search_logfile_for_key parse_logline new_api_key before.
Proof. unfold search_logfile_for_key. apply search_loop_stops. Qed.

(** X10. A key [search_logfile_for_key] returns was announced by one of the
    lines it read. *)
Theorem search_logfile_key_origin {Event : Type}
    (parse_logline : string -> option Event) (new_api_key : Event -> option string)
    (items : list (bool * option string)) (key : string) :
  search_logfile_for_key parse_logline new_api_key items = Some key ->
  exists line, In (a_line line) items
               /\ key_on parse_logline new_api_key line = Some key.
Proof.
  intros Hfound. apply search_loop_origin in Hfound as [[=]|Horigin]. exact Horigin.
Qed.

Lemma search_logfile_key_origin_witness :
  exists line, In (a_line line) [a_line "KEY a-key"; the_end]
               /\ key_on sample_parse Some line = Some "a-key".
Proof.
  apply (search_logfile_key_origin sample_parse Some [a_line "KEY a-key"; the_end] "a-key").
  reflexivity.
Defined.

(** *** The settings file *)






(** *** The logfile prompt *)

(** Number of seconds for a logfile to be considered recently used *)
Definition RECENT_TIMEOUT : Z := 60.

(** [sorted(items, key=lambda item: item[0], reverse=True)]: the largest
    timestamp first, items of equal timestamp in the order they came. *)
Fixpoint insert_newest_first (item : Z * string) (sorted : list (Z * string))
  : list (Z * string) :=
  match sorted with
  | [] => [item]
  | other :: rest =>
      if fst item <? fst other then other :: insert_newest_first item rest
      else item :: other :: rest
  end.

Definition sorted_newest_first (items : list (Z * string)) : list (Z * string) :=
  foldr insert_newest_first [] items.

(** The part of a [LogfilePrompt] that [update_logfile_order] works on. *)
Record LogfilePrompt := {
  known_logfiles : list string;
  logfile_recent : list bool
}.

Section Logfiles.
(** [Path(path_str).stat().st_mtime], [None] when [stat] raises an [OSError];
    timestamps are counted in whole ticks. *)
Variable st_mtime : string -> option Z.

(** Get the modified timestamp of the file *)
Definition get_timestamp (path_str : string) : Z :=
  match st_mtime path_str with
  | Some timestamp => timestamp
  | None => 0
  end.

(** True if logfile was updated recently *)
Definition recent (now timestamp : Z) : bool := now - timestamp <? RECENT_TIMEOUT.

(** Update the order of the logfiles *)
Definition update_logfile_order (self : LogfilePrompt) (now : Z) : bool * LogfilePrompt :=
  let logfile_timestamps := map get_timestamp (known_logfiles self) in
  (* Keep most recent logfiles at the top *)
  let timestamped_logfiles :=
    sorted_newest_first (zip logfile_timestamps (known_logfiles self)) in
  let sorted_logfile_timestamps := map fst timestamped_logfiles in
  let new_known_logfiles := map snd timestamped_logfiles in
  let new_logfile_recent := map (recent now) sorted_logfile_timestamps in
  if negb (bool_decide (new_known_logfiles = known_logfiles self))
     || negb (bool_decide (new_logfile_recent = logfile_recent self))
  then (true, {| known_logfiles := new_known_logfiles;
                 logfile_recent := new_logfile_recent |})
  else (false, self).

(** Remove the logfile from memory and the GUI *)
Definition remove_logfile_and_update (self : LogfilePrompt) (logfile : string) (now : Z)
  : LogfilePrompt :=
  let self := {| known_logfiles :=
                   List.filter (fun el => negb (String.eqb el logfile)) (known_logfiles self);
                 logfile_recent := logfile_recent self |} in
  (* Update the order so self.logfile_recent is updated *)
  snd (update_logfile_order self now).

End Logfiles.

Lemma insert_newest_first_perm (item : Z * string) (sorted : list (Z * string)) :
  Permutation (insert_newest_first item sorted) (item :: sorted).
Proof.
  induction sorted as [|other rest IH]; simpl; [reflexivity|].
  destruct (fst item <? fst other); [|reflexivity].
  rewrite IH. apply perm_swap.
Qed.

Lemma sorted_newest_first_perm (items : list (Z * string)) :
  Permutation (sorted_newest_first items) items.
Proof.
  induction items as [|item items IH]; simpl; [reflexivity|].
  rewrite insert_newest_first_perm. now constructor.
Qed.

Lemma insert_newest_first_descending (item : Z * string) (sorted : list (Z * string)) :
  RateLimiter.descending (map fst sorted) ->
  RateLimiter.descending (map fst (insert_newest_first item sorted)).
Proof.
  induction sorted as [|other rest IH]; simpl; [tauto|]. intros [Hhead Hrest].
  destruct (Z.ltb_spec (fst item) (fst other)); simpl.
  - split; [|now apply IH]. intros y Hy.
    apply (Permutation_in _ (Permutation_map fst (insert_newest_first_perm item rest)))
      in Hy.
    destruct Hy as [<-|Hy]; [lia|now apply Hhead].
  - repeat split; [|exact Hhead|exact Hrest].
    intros y [<-|Hy]; [lia|]. specialize (Hhead y Hy). lia.
Qed.

Lemma sorted_newest_first_descending (items : list (Z * string)) :
  RateLimiter.descending (map fst (sorted_newest_first items)).
Proof.
  induction items as [|item items IH]; simpl; [exact I|].
  now apply insert_newest_first_descending.
Qed.

(** Sorting a list that is in order already changes nothing. *)
Lemma sorted_newest_first_fixed (items : list (Z * string)) :
  RateLimiter.descending (map fst items) -> sorted_newest_first items = items.
Proof.
  induction items as [|item items IH]; simpl; [reflexivity|]. intros [Hhead Hrest].
  rewrite IH by exact Hrest. destruct items as [|other rest]; simpl; [reflexivity|].
  destruct (Z.ltb_spec (fst item) (fst other)) as [Hlt|]; [|reflexivity].
  specialize (Hhead (fst other) (or_introl eq_refl)). lia.
Qed.

Section LogfileFacts.
Variable st_mtime : string -> option Z.

(** Every logfile paired with its own timestamp. *)
Definition stamped (items : list (Z * string)) : Prop :=
  Forall (fun item => fst item = get_timestamp st_mtime (snd item)) items.

Lemma zip_stamped (logfiles : list string) :
  stamped (zip (map (get_timestamp st_mtime) logfiles) logfiles)
  /\ map snd (zip (map (get_timestamp st_mtime) logfiles) logfiles) = logfiles.
Proof.
  induction logfiles as [|logfile logfiles [IH1 IH2]]; simpl.
  - split; [constructor|reflexivity].
  - split; [now constructor|now rewrite IH2].
Qed.

Lemma stamped_zip (items : list (Z * string)) :
  stamped items ->
  zip (map (get_timestamp st_mtime) (map snd items)) (map snd items) = items
  /\ map fst items = map (get_timestamp st_mtime) (map snd items).
Proof.
  induction 1 as [|[timestamp logfile] items Hitem _ [IH1 IH2]]; simpl in *.
  - split; reflexivity.
  - subst timestamp. split; [now rewrite IH1|now rewrite IH2].
Qed.

(** What [update_logfile_order] computes, before it compares with the state. *)
Definition reordered (self : LogfilePrompt) : list (Z * string) :=
  sorted_newest_first
    (zip (map (get_timestamp st_mtime) (known_logfiles self)) (known_logfiles self)).

Lemma reordered_stamped (self : LogfilePrompt) : stamped (reordered self).
Proof.
  unfold stamped, reordered. apply List.Forall_forall. intros item Hin.
  apply (Permutation_in _ (sorted_newest_first_perm _)) in Hin.
  pose proof (proj1 (zip_stamped (known_logfiles self))) as Hzip.
  unfold stamped in Hzip. rewrite List.Forall_forall in Hzip. now apply Hzip.
Qed.

Lemma update_logfile_order_state (self : LogfilePrompt) (now : Z) :
  snd (update_logfile_order st_mtime self now)
  = {| known_logfiles := map snd (reordered self);
       logfile_recent := map (recent now) (map fst (reordered self)) |}.
Proof.
  unfold update_logfile_order. fold (reordered self).
  destruct (bool_decide_reflect (map snd (reordered self) = known_logfiles self))
    as [Hknown|]; simpl; [|reflexivity].
  destruct (bool_decide_reflect
              (map (recent now) (map fst (reordered self)) = logfile_recent self))
    as [Hrecent|]; simpl; [|reflexivity].
  rewrite Hknown, Hrecent. now destruct self.
Qed.

End LogfileFacts.

(** Three logfiles and when each was last written; the fourth cannot be
    stat'ed. *)
Definition sample_mtime (path_str : string) : option Z :=
  if String.eqb path_str "vanilla.log" then Some 100
  else if String.eqb path_str "lunar.log" then Some 950
  else if String.eqb path_str "forge.log" then Some 100
  else None.

Definition sample_prompt : LogfilePrompt :=
  {| known_logfiles := ["vanilla.log"; "gone.log"; "lunar.log"; "forge.log"];
     logfile_recent := [false; false; false; false] |}.

Example sample_prompt_updated :
  update_logfile_order sample_mtime sample_prompt 1000
  = (true, {| known_logfiles := ["lunar.log"; "vanilla.log"; "forge.log"; "gone.log"];
              logfile_recent := [true; false; false; false] |}).
Proof. reflexivity. Qed.

(** X13. [update_logfile_order] loses and invents no logfile: the new list is
    a rearrangement of the old one, ordered by timestamp with the newest
    first; every logfile has its own flag, set when its timestamp is less
    than 60 seconds old; and the call returns False exactly when it left the
    state as it was. *)
Theorem update_logfile_order_sorts
    (st_mtime : string -> option Z) (self : LogfilePrompt) (now : Z) :
  let updated := snd (update_logfile_order st_mtime self now) in
  Permutation (known_logfiles updated) (known_logfiles self)
  /\ RateLimiter.descending (map (get_timestamp st_mtime) (known_logfiles updated))
  /\ logfile_recent updated
     = map (fun logfile => recent now (get_timestamp st_mtime logfile))
           (known_logfiles updated)
  /\ (fst (update_logfile_order st_mtime self now) = false <-> updated = self).
Proof.
  cbv zeta. rewrite update_logfile_order_state. simpl.
  pose proof (stamped_zip st_mtime _ (reordered_stamped st_mtime self)) as [_ Hfst].
  split; [|split; [|split]].
  - unfold reordered. rewrite (Permutation_map snd (sorted_newest_first_perm _)).
    rewrite (proj2 (zip_stamped st_mtime (known_logfiles self))). reflexivity.
  - rewrite <- Hfst. unfold reordered. apply sorted_newest_first_descending.
  - rewrite Hfst. now rewrite List.map_map.
  - unfold update_logfile_order. fold (reordered st_mtime self).
    destruct (bool_decide_reflect
                (map snd (reordered st_mtime self) = known_logfiles self)) as [Hknown|Hknown];
      simpl.
    + destruct (bool_decide_reflect
                  (map (recent now) (map fst (reordered st_mtime self))
                   = logfile_recent self)) as [Hrecent|Hrecent]; simpl.
      * split; [|reflexivity]. intros _. rewrite Hknown, Hrecent. now destruct self.
      * split; [discriminate|]. intros Hsame. destruct Hrecent.
        exact (f_equal logfile_recent Hsame).
    + split; [discriminate|]. intros Hsame. destruct Hknown.
      exact (f_equal known_logfiles Hsame).
Qed.

(** X14. Polling again changes nothing: after [update_logfile_order], a second
    call with the same clock and the same timestamps returns False and leaves
    the state alone. *)
Theorem update_logfile_order_settles
    (st_mtime : string -> option Z) (self : LogfilePrompt) (now : Z) :
  let updated := snd (update_logfile_order st_mtime self now) in
  update_logfile_order st_mtime updated now = (false, updated).
Proof.
  cbv zeta. rewrite update_logfile_order_state.
  set (sorted := reordered st_mtime self).
  pose proof (stamped_zip st_mtime _ (reordered_stamped st_mtime self)) as [Hzip _].
  fold sorted in Hzip. unfold update_logfile_order. simpl.
  rewrite Hzip.
  rewrite (sorted_newest_first_fixed sorted)
    by (unfold sorted, reordered; apply sorted_newest_first_descending).
  rewrite !bool_decide_eq_true_2 by reflexivity. reflexivity.
Qed.

(** X15. Logfiles that are in order already stay where they are; among
    others, logfiles with the same timestamp, such as files that cannot be
    stat'ed, keep the order they were listed in. *)
Theorem update_logfile_order_stable
    (st_mtime : string -> option Z) (self : LogfilePrompt) (now : Z) :
  RateLimiter.descending (map (get_timestamp st_mtime) (known_logfiles self)) ->
  known_logfiles (snd (update_logfile_order st_mtime self now)) = known_logfiles self.
Proof.
  intros Hsorted. rewrite update_logfile_order_state. simpl. unfold reordered.
  rewrite sorted_newest_first_fixed.
  - apply zip_stamped.
  - pose proof (zip_stamped st_mtime (known_logfiles self)) as [Hstamped Hsnd].
    rewrite (proj2 (stamped_zip st_mtime _ Hstamped)), Hsnd. exact Hsorted.
Qed.

Lemma update_logfile_order_stable_witness :
  known_logfiles
    (snd (update_logfile_order (fun _ => None)
            {| known_logfiles := ["b.log"; "a.log"; "c.log"];
               logfile_recent := [] |} 1000))
  = ["b.log"; "a.log"; "c.log"].
Proof.
  apply (update_logfile_order_stable (fun _ => None)
           {| known_logfiles := ["b.log"; "a.log"; "c.log"]; logfile_recent := [] |} 1000).
  unfold get_timestamp. simpl. intuition lia.
Defined.

(** *** The logfile cache of prompt_for_logfile_path *)

Module LogfileCache.

(** The dict [logfile_cache] and what [write_cache] has dumped so far, oldest
    first. *)
Record t := {
  known_logfiles : list string;
  last_used : option string;
  written : list (list string * option string)
}.

Definition write_cache (cache : t) : t :=
  {| known_logfiles := known_logfiles cache;
     last_used := last_used cache;
     written := (written cache ++ [(known_logfiles cache, last_used cache)])%list |}.

Definition remove_logfile (logfile : string) (cache : t) : t :=
  write_cache
    {| known_logfiles :=
         List.filter (fun el => negb (String.eqb el logfile)) (known_logfiles cache);
       last_used := last_used cache;
       written := written cache |}.

Definition choose_logfile (logfile : string) (cache : t) : t :=
  write_cache
    {| known_logfiles :=
         if existsb (String.eqb logfile) (known_logfiles cache) then known_logfiles cache
         else (known_logfiles cache ++ [logfile])%list;
       last_used := Some logfile;
       written := written cache |}.

(** What the user does in the prompt. *)
Inductive Action : Type :=
  | Remove (logfile : string)
  | Choose (logfile : string).

Definition act (action : Action) (cache : t) : t :=
  match action with
  | Remove logfile => remove_logfile logfile cache
  | Choose logfile => choose_logfile logfile cache
  end.

Definition session (actions : list Action) (cache : t) : t :=
  foldl (fun cache action => act action cache) cache actions.

(** [logfile in known_logfiles] *)
Lemma known_In (logfile : string) (known : list string) :
  existsb (String.eqb logfile) known = true <-> In logfile known.
Proof.
  rewrite existsb_exists. split.
  - intros (x & Hin & Heq). apply String.eqb_eq in Heq. now subst.
  - intros Hin. exists logfile. split; [exact Hin|apply String.eqb_refl].
Qed.

Lemma act_keeps_NoDup (action : Action) (cache : t) :
  List.NoDup (known_logfiles cache) -> List.NoDup (known_logfiles (act action cache)).
Proof.
  intros Hnodup. destruct action as [logfile|logfile]; simpl.
  - now apply List.NoDup_filter.
  - destruct (existsb (String.eqb logfile) (known_logfiles cache)) eqn:Hknown;
      [exact Hnodup|].
    apply List.NoDup_app; repeat split.
    + exact Hnodup.
    + constructor; [intros []|constructor].
    + intros x Hx [<-|[]]. apply known_In in Hx. congruence.
Qed.

Lemma act_written (action : Action) (cache : t) :
  last (written (act action cache))
  = Some (known_logfiles (act action cache), last_used (act action cache)).
Proof. destruct action; simpl; apply last_snoc. Qed.

(** X16. However the user removes and chooses logfiles, the list of known
    logfiles gains no duplicate, and after each action the file holds the
    cache as it then is; once a logfile is chosen it is the last used one and
    it is known. *)
Theorem logfile_cache_session (actions : list Action) (action : Action) (cache : t) :
  List.NoDup (known_logfiles cache) ->
  let after := session (actions ++ [action]) cache in
  List.NoDup (known_logfiles after)
  /\ last (written after) = Some (known_logfiles after, last_used after)
  /\ match action with
     | Choose logfile => last_used after = Some logfile /\ In logfile (known_logfiles after)
     | Remove logfile => ~ In logfile (known_logfiles after)
     end.
Proof.
  intros Hnodup. cbv zeta. unfold session. rewrite foldl_app. simpl.
  fold (session actions cache).
  assert (List.NoDup (known_logfiles (session actions cache))) as Hbefore.
  { revert cache Hnodup. induction actions as [|first actions IH]; intros cache Hnodup.
    - exact Hnodup.
    - apply IH. now apply act_keeps_NoDup. }
  split; [now apply act_keeps_NoDup|]. split; [apply act_written|].
  destruct action as [logfile|logfile]; simpl.
  - intros Hin. apply filter_In in Hin as [_ Hne].
    now rewrite String.eqb_refl in Hne.
  - split; [reflexivity|].
    destruct (existsb (String.eqb logfile) (known_logfiles (session actions cache)))
      eqn:Hknown; [now apply known_In|]. apply in_or_app. right. now left.
Qed.

Lemma logfile_cache_session_witness :
  let after :=
    session ([Choose "a.log"; Remove "b.log"] ++ [Choose "c.log"])
      {| known_logfiles := ["a.log"; "b.log"]; last_used := None; written := [] |} in
  List.NoDup (known_logfiles after)
  /\ last (written after) = Some (known_logfiles after, last_used after)
  /\ (last_used after = Some "c.log" /\ In "c.log" (known_logfiles after)).
Proof.
  apply (logfile_cache_session [Choose "a.log"; Remove "b.log"] (Choose "c.log")
           {| known_logfiles := ["a.log"; "b.log"]; last_used := None; written := [] |}).
  repeat constructor; simpl; intuition discriminate.
Defined.

End LogfileCache.

End UserInteraction.

(** ** More on prism/overlay/antisniper_api.py *)

Module AntiSniperFacts.
Import AntiSniper.

(** A value that is a JSON object. *)
Definition is_dict (x : pyval) : bool :=
  match x with PDict _ => true | _ => false end.

(** A winstreak as [Winstreaks] may hold it: an int or [None]. *)
Definition int_or_none (winstreak : option pyval) : Prop :=
  match winstreak with
  | Some value => is_int value = true
  | None => True
  end.

Lemma parse_denick_response_object (d : gmap string pyval) :
  exists uuid, parse_denick_response (PDict d) = Ret uuid.
Proof.
  unfold parse_denick_response. simpl.
  destruct (negb _); [eauto|].
  destruct (default (PStr "INVALIDTYPE") (d !! "player")) as [| | | | | |p]; eauto.
  simpl. destruct (default PNone (p !! "uuid")); eauto.
Qed.

Lemma parse_denick_response_other (response_json : pyval) :
  is_dict response_json = false ->
  parse_denick_response response_json = Raise AttributeError.
Proof. destruct response_json; simpl; intros H; try reflexivity. discriminate. Qed.

Lemma kept_int_is_int (field : option pyval) : int_or_none (kept_int field).
Proof.
  destruct field as [value|]; simpl; [|exact I].
  destruct (is_int value) eqn:Hint; simpl; [exact Hint|exact I].
Qed.

(** X17. A resolved nick is served from the cache under any spelling: after a
    [denick] that got a well-formed answer, every [denick] within the next
    hour of a nick with the same lowercase form returns the same uuid, sends
    no request and changes nothing, whatever the endpoint would answer. *)
Theorem denick_resolved_once
    (lower : string -> string) (nick spelling : string)
    (key_holder : AntiSniperAPIKeyHolder) (latency latency' : nat)
    (reply reply' : Reply) (uuid : string) (w : World) (at_ : Z) :
  no_cached_uuid lower nick w ->
  denick_success reply uuid ->
  lower spelling = lower nick ->
  now w + Z.of_nat latency <= at_ < now w + Z.of_nat latency + DENICK_TTL ->
  let resolved := at_time at_ (snd (denick lower nick key_holder latency reply w)) in
  denick lower spelling key_holder latency' reply' resolved
  = (Ret (Some uuid), resolved).
Proof.
  intros Hno Hsucc Hlow Hlive. cbv zeta.
  rewrite (denick_remote lower nick key_holder latency reply w Hno). cbv zeta.
  rewrite (parse_success reply uuid Hsucc). unfold returning. cbn [snd].
  unfold denick at 1. rewrite get_after_set by exact Hlow. simpl now.
  destruct (Z.ltb_spec at_ (now w + Z.of_nat latency + DENICK_TTL)); [reflexivity|lia].
Qed.

Lemma denick_resolved_once_witness :
  let resolved :=
    at_time 3600 (snd (denick ascii_lower "Nick" a_holder 1 resolved_reply start)) in
  denick ascii_lower "nICK" a_holder 5 not_found_reply resolved
  = (Ret (Some "abc"), resolved).
Proof.
  apply (denick_resolved_once ascii_lower "Nick" "nICK" a_holder 1 5
           resolved_reply not_found_reply "abc" start 3600).
  - intros cached. vm_compute. discriminate.
  - eexists _, _, _. repeat split; vm_compute; reflexivity.
  - reflexivity.
  - unfold DENICK_TTL. simpl. lia.
Defined.

(** X18. [denick] raises in one case only: no uuid is cached, the answer has
    a status that is neither 404 nor 4xx/5xx, and its body is JSON but not an
    object; the exception is then the [AttributeError] of [response_json.get],
    and nothing is written to the cache. *)
Theorem denick_raises_iff
    (lower : string -> string) (nick : string) (key_holder : AntiSniperAPIKeyHolder)
    (latency : nat) (reply : Reply) (w : World) (e : exn) :
  fst (denick lower nick key_holder latency reply w) = Raise e
  <-> e = AttributeError
      /\ no_cached_uuid lower nick w
      /\ cache (snd (denick lower nick key_holder latency reply w)) = cache w
      /\ exists response response_json,
           reply = Got response /\ status_code response <> 404 /\ ok response = true
           /\ json response = Some response_json /\ is_dict response_json = false.
Proof.
  split.
  - unfold denick, no_cached_uuid.
    destruct (get_denick_cache lower nick w) as [[cached|]|] eqn:Hget;
      [discriminate| |];
      (destruct reply as [|response]; [discriminate|];
       destruct (Z.eqb_spec (status_code response) 404) as [|H404]; [discriminate|];
       destruct (ok response) eqn:Hok; simpl; [|discriminate];
       destruct (json response) as [response_json|] eqn:Hjson; [|discriminate];
       destruct response_json as [| | | | | |d];
         try (intros [= <-]; repeat split; try discriminate;
              eexists _, _; repeat split; eauto);
       destruct (parse_denick_response_object d) as [uuid ->]; discriminate).
  - intros (-> & Hno & _ & response & response_json & -> & H404 & Hok & Hjson & Hdict).
    rewrite denick_remote by exact Hno. simpl.
    apply Z.eqb_neq in H404. rewrite H404, Hok, Hjson. simpl.
    now rewrite parse_denick_response_other.
Qed.

(** X19. Every call of [get_estimated_winstreaks] sends one request, for the
    uuid it was given, and leaves the denick cache alone: winstreaks are not
    cached. It raises only when the answer is not a 4xx/5xx and its body is
    JSON but not an object. *)
Theorem get_estimated_winstreaks_effect
    (uuid : string) (key_holder : AntiSniperAPIKeyHolder) (latency : nat)
    (reply : Reply) (w : World) (e : exn) :
  snd (get_estimated_winstreaks uuid key_holder latency reply w)
  = session_get (winstreak_url uuid key_holder) latency w
  /\ (fst (get_estimated_winstreaks uuid key_holder latency reply w) = Raise e
      <-> e = AttributeError
          /\ exists response response_json,
               reply = Got response /\ ok response = true
               /\ json response = Some response_json /\ is_dict response_json = false).
Proof.
  unfold get_estimated_winstreaks. split.
  - destruct reply as [|response]; [reflexivity|].
    destruct (negb (ok response)); [reflexivity|].
    destruct (json response); reflexivity.
  - split.
    + destruct reply as [|response]; [discriminate|].
      destruct (ok response) eqn:Hok; simpl; [|discriminate].
      destruct (json response) as [response_json|] eqn:Hjson; [|discriminate]. simpl.
      destruct response_json as [| | | | | |d];
        try (intros [= <-]; split; [reflexivity|]; eexists _, _; repeat split; eauto).
      unfold parse_estimated_winstreaks_response. simpl.
      destruct (negb _); [discriminate|].
      destruct (default PNone (d !! "overall_accurate")); discriminate.
    + intros (-> & response & response_json & -> & Hok & Hjson & Hdict).
      rewrite Hok, Hjson. simpl. now destruct response_json.
Qed.

(** X20. On a JSON object [parse_estimated_winstreaks_response] always
    returns: each winstreak it gives is an int or [None], and it reports the
    winstreaks as accurate only when the payload has a truthy [success] and
    [overall_accurate] is [true]. *)
Theorem parse_estimated_winstreaks_response_object (d : gmap string pyval) :
  exists winstreaks accurate,
    parse_estimated_winstreaks_response (PDict d) = Ret (winstreaks, accurate)
    /\ int_or_none (overall winstreaks) /\ int_or_none (solo winstreaks)
    /\ int_or_none (doubles winstreaks) /\ int_or_none (threes winstreaks)
    /\ int_or_none (fours winstreaks)
    /\ (accurate = true ->
        truthy (default (PBool false) (d !! "success")) = true
        /\ d !! "overall_accurate" = Some (PBool true)).
Proof.
  destruct (truthy (default (PBool false) (d !! "success"))) eqn:Hsucc.
  - destruct (d !! "overall_accurate") as [accurate|] eqn:Hacc.
    + destruct accurate as [|accurate| | | | |];
        try (exists MISSING_WINSTREAKS, false;
             unfold parse_estimated_winstreaks_response; simpl;
             rewrite Hsucc, Hacc; simpl; repeat split; discriminate).
      eexists _, accurate. split; [now apply parse_winstreaks_payload|].
      simpl. repeat split; try apply kept_int_is_int. now subst.
    + exists MISSING_WINSTREAKS, false.
      unfold parse_estimated_winstreaks_response. simpl. rewrite Hsucc, Hacc. simpl.
      repeat split; discriminate.
  - exists MISSING_WINSTREAKS, false.
    unfold parse_estimated_winstreaks_response. simpl. rewrite Hsucc. simpl.
    repeat split; discriminate.
Qed.

End AntiSniperFacts.

(** ** examples/sidelay/printing.py: colouring a stat by its level *)

Module Printing.

(** What [color] can end with instead of a string. *)
Inductive error : Type :=
  | AssertionFailed
  | UnboundLocalError
  | IndexError.

Section Color.
(** The numbers compared are ints and floats; [ltb] is Python's [<] on them.
    [LEVEL_COLORMAP] and [END] stand for the constants built from
    hystatutils/colors.py, which is not under src/. *)
Context {Num : Type}.
Variable ltb : Num -> Num -> bool.
Variable LEVEL_COLORMAP : list string.
Variable END : string.

(** The loop [for i, level in enumerate(levels): if value < level: break] with
    its [else: i += 1], on a list that is not empty: the index of the first
    level above the value, the number of levels when there is none. *)
Fixpoint level_of (value : Num) (levels : list Num) : nat :=
  match levels with
  | [] => 0
  | level :: levels => if ltb value level then 0%nat else S (level_of value levels)
  end.



End Color.


(** X22. A value that is below no more levels gets no lower level: if every
    level above [better] is above [value] too, the level of [better] is at
    least that of [value], whatever the order of the levels. *)
Theorem level_of_monotone {Num : Type} (ltb : Num -> Num -> bool)
    (value better : Num) (levels : list Num) :
  (forall level, In level levels -> ltb better level = true -> ltb value level = true) ->
  (level_of ltb value levels <= level_of ltb better levels)%nat.
Proof.
  induction levels as [|level levels IH]; intros Hbelow; simpl; [lia|].
  destruct (ltb value level) eqn:Hvalue; [lia|].
  destruct (ltb better level) eqn:Hbetter.
  - rewrite (Hbelow level (or_introl eq_refl) Hbetter) in Hvalue. discriminate.
  - apply le_n_S, IH. intros level' Hin. apply Hbelow. now right.
Qed.

Lemma level_of_monotone_witness :
  (level_of Z.ltb 250%Z [100; 300; 500; 800]%Z
   <= level_of Z.ltb 620%Z [100; 300; 500; 800]%Z)%nat.
Proof.
  apply (level_of_monotone Z.ltb 250 620 [100; 300; 500; 800]).
  intros level _ Hbetter. apply Z.ltb_lt in Hbetter. apply Z.ltb_lt. lia.
Defined.

End Printing.
